(** * Work Assistant front end: menu tree, session store, HTTP envelope,
      route synthesis and navigation guard.

    Shallow embedding of
    - [frontend/src/stores/menu.ts]   (menu tree builder, visibility pass,
                                       route synthesizer, view resolver),
    - [frontend/src/stores/user.ts]   (session store, permission queries),
    - [frontend/src/api/request.ts], [qwn_code/.../api/http.ts] and the
      codex [http] client             (response interceptors),
    - [frontend/src/router/index.ts]  (navigation guard).

    Conventions.  JavaScript numbers that the code uses as identifiers,
    order fields and envelope codes are integers and are modelled by [Z].
    An optional field ([router?: string]) is an [option]; JavaScript
    truthiness is written out where the code relies on it.  Objects that
    the code mutates through references live in an explicit heap. *)

From Stdlib Require Import Strings.Ascii.
From stdpp Require Import gmap strings list fin_maps pretty.

Local Open Scope Z_scope.
#[local] Set Warnings "-clear-no-such-hyp".

(** ** JavaScript truthiness of the values the code tests *)

Definition truthyStr (s : string) : bool := negb (String.eqb s "").

Definition truthyOptStr (o : option string) : bool :=
  match o with Some s => truthyStr s | None => false end.

Definition truthyNum (n : Z) : bool := negb (n =? 0).

(** * Menu store *)

Module MenuStore.

(** [interface MenuItem], as the menu endpoint delivers it (a flat record;
    [children] only exists on the nodes the builder allocates). *)
Record MenuItem := mkMenuItem {
  id : Z;
  parentId : option Z;          (* number | null *)
  name : string;
  router : option string;
  perms : option string;
  type : Z;                     (* 0=directory, 1=menu, 2=permission *)
  icon : option string;
  orderNum : Z;
  isShow : bool;
  keepAlive : bool
}.

(** A node object allocated by the first pass: [{ ...item, children: [] }].
    The [children] array holds references to other node objects; a
    reference is the key under which the object sits in the [Map]. *)
Record MenuObj := mkMenuObj {
  objItem : MenuItem;
  objChildren : list Z
}.

(** What [buildMenuTree] returns: the [roots] array of references, together
    with the objects they point to. *)
Record MenuGraph := mkMenuGraph {
  heap : gmap Z MenuObj;
  roots : list Z
}.

(** First pass: [items.forEach(item => map.set(item.id, {...item, children: []}))]. *)
Definition insertNode (map : gmap Z MenuObj) (item : MenuItem) : gmap Z MenuObj :=
  <[id item := mkMenuObj item []]> map.

Definition indexItems (items : list MenuItem) : gmap Z MenuObj :=
  foldl insertNode ∅ items.

(** [parent.children.push(node)] *)
Definition pushChild (node : Z) (parent : MenuObj) : MenuObj :=
  mkMenuObj (objItem parent) (objChildren parent ++ [node]).

(** [item.parentId && map.has(item.parentId)]: the parent the record is
    attached to, if any.  [null] and [0] are falsy. *)
Definition attachTarget (map : gmap Z MenuObj) (item : MenuItem) : option Z :=
  match parentId item with
  | Some p => if truthyNum p && bool_decide (is_Some (map !! p)) then Some p else None
  | None => None
  end.

(** Body of the second [forEach]. *)
Definition attachItem (acc : gmap Z MenuObj * list Z) (item : MenuItem)
  : gmap Z MenuObj * list Z :=
  let node := id item in                       (* map.get(item.id)! *)
  match attachTarget acc.1 item with
  | Some p => (alter (pushChild node) p acc.1, acc.2)
  | None => (acc.1, acc.2 ++ [node])
  end.

Definition buildMenuTree (items : list MenuItem) : MenuGraph :=
  let map := indexItems items in
  let r := foldl attachItem (map, []) items in
  mkMenuGraph r.1 r.2.

(** The tree a caller sees when it follows the references. *)
#[local] Unset Elimination Schemes.
Inductive MenuNode := Node {
  item : MenuItem;
  children : option (list MenuNode)    (* children?: MenuItem[] *)
}.
#[local] Set Elimination Schemes.

(** Following the references from [refs] down to the leaves.  [fuel] bounds
    the depth; [None] means the walk did not end within it (a reference
    cycle makes every JavaScript traversal of the structure overflow the
    stack). *)
Definition unfoldRef (walk : list Z → option (list MenuNode))
    (h : gmap Z MenuObj) (r : Z) : option MenuNode :=
  obj ← h !! r;
  kids ← walk (objChildren obj);
  Some (Node (objItem obj) (Some kids)).

Fixpoint unfoldRefs (fuel : nat) (h : gmap Z MenuObj) (refs : list Z)
  : option (list MenuNode) :=
  match fuel with
  | O => None
  | S fuel' => mapM (unfoldRef (unfoldRefs fuel' h) h) refs
  end.

Definition treeOf (g : MenuGraph) : option (list MenuNode) :=
  unfoldRefs (S (size (heap g))) (heap g) (roots g).

(** [Array.prototype.sort(cmp)] is a stable sort.  [insertBy cmp x l] puts
    [x], which precedes the elements of [l] in the input, in front of the
    first [y] with [cmp(x, y) <= 0]. *)
Fixpoint insertBy {A} (cmp : A → A → Z) (x : A) (l : list A) : list A :=
  match l with
  | [] => [x]
  | y :: l' => if cmp x y <=? 0 then x :: y :: l' else y :: insertBy cmp x l'
  end.

Definition sortBy {A} (cmp : A → A → Z) (l : list A) : list A :=
  foldr (insertBy cmp) [] l.

(** [(a, b) => a.orderNum - b.orderNum] *)
Definition byOrderNum (a b : MenuNode) : Z := orderNum (item a) - orderNum (item b).

(** [item => item.isShow && item.type !== 2] *)
Definition isVisible (n : MenuNode) : bool :=
  isShow (item n) && negb (type (item n) =? 2).

(** [{ ...item, children: item.children ? filterVisibleMenus(item.children) : undefined }],
    with the recursive call on the children written as a local loop
    (filter, then map, then sort). *)
Fixpoint visibleCopy (n : MenuNode) : MenuNode :=
  Node (item n)
       (match children n with
        | Some cs =>
            Some (sortBy byOrderNum
                    ((fix keep (l : list MenuNode) : list MenuNode :=
                        match l with
                        | [] => []
                        | c :: l' => if isVisible c then visibleCopy c :: keep l'
                                     else keep l'
                        end) cs))
        | None => None
        end).

Definition filterVisibleMenus (items : list MenuNode) : list MenuNode :=
  sortBy byOrderNum (visibleCopy <$> List.filter isVisible items).

(** [RouteRecordRaw] as [generateRoutes] fills it.  [component] is the thunk
    [() => resolveComponent(item.router!)]; it is represented by the path it
    closes over. *)
Record RouteMeta := mkRouteMeta {
  metaTitle : option string;
  metaIcon : option string;
  metaPublic : option bool;
  metaKeepAlive : option bool;
  metaPerms : option string
}.

Record RouteRecord := mkRouteRecord {
  routePath : string;
  routeName : string;
  routeMeta : RouteMeta;
  routeComponent : string
}.

(** [item.type === 1 && item.router] *)
Definition isNavigable (it : MenuItem) : bool :=
  (type it =? 1) && truthyOptStr (router it).

Definition routeOf (it : MenuItem) : RouteRecord :=
  let r := default "" (router it) in
  mkRouteRecord r (name it)
    (mkRouteMeta (Some (name it)) (icon it) None (Some (keepAlive it)) (perms it)) r.

(** The inner [traverse] of [generateRoutes]: the routes pushed while one
    item and its subtree are visited. *)
Fixpoint traverseItem (n : MenuNode) : list RouteRecord :=
  (if isNavigable (item n) then [routeOf (item n)] else []) ++
  match children n with
  | Some cs => List.flat_map traverseItem cs       (* item.children?.length *)
  | None => []
  end.

Definition traverse (items : list MenuNode) : list RouteRecord :=
  List.flat_map traverseItem items.

(** [generateRoutes] reads [menus.value]; a fresh [routes] array per call. *)
Definition generateRoutes (menus : list MenuNode) : list RouteRecord :=
  traverse menus.

(** [router.startsWith('/') ? router.slice(1) : router] *)
Definition stripLeadingSlash (router : string) : string :=
  match router with
  | String "/"%char rest => rest
  | _ => router
  end.

(** What the resolver hands back: a loader found in the glob table, or the
    loader of the 404 view. *)
Inductive View (L : Type) := Found (loader : L) | NotFound404.
Arguments Found {L} loader.
Arguments NotFound404 {L}.

(** [modules] is the table [import.meta.glob('@/views/**/*.vue')] yields:
    view file path to lazy loader. *)
Definition resolveComponent {L} (modules : gmap string L) (router : string) : View L :=
  let path := stripLeadingSlash router in
  let componentPath := "/src/views/" +:+ path +:+ ".vue" in
  match modules !! componentPath with
  | Some m => Found m
  | None =>
      let indexPath := "/src/views/" +:+ path +:+ "/index.vue" in
      match modules !! indexPath with
      | Some m => Found m
      | None => NotFound404
      end
  end.

(** Calling the [component] thunk of a route record,
    [() => resolveComponent(item.router!)], which the router does when a
    navigation reaches the record, not when the record is registered. *)
Definition loadComponent {L} (modules : gmap string L) (route : RouteRecord) : View L :=
  resolveComponent modules (routeComponent route).

(** ** Vocabulary for the statements about the menu tree *)

(** Identifiers of the records that the builder attaches under [k], and of
    those it places at the root, both in input order. *)
Definition childIds (items : list MenuItem) (k : Z) : list Z :=
  id <$> filter (λ it, attachTarget (indexItems items) it = Some k) items.

Definition rootIds (items : list MenuItem) : list Z :=
  id <$> filter (λ it, attachTarget (indexItems items) it = None) items.

(** The references held by the [children] array of object [r]. *)
Definition kidsOf (h : gmap Z MenuObj) (r : Z) : list Z :=
  match h !! r with Some o => objChildren o | None => [] end.

(** [y] is reached from [x] by following [children] references. *)
Definition reaches (h : gmap Z MenuObj) : relation Z :=
  rtc (λ x y, y ∈ kidsOf h x).

(** Pre-order flattening of a tree to its identifiers. *)
Fixpoint nodeIds (n : MenuNode) : list Z :=
  id (item n) ::
  match children n with
  | Some cs => List.flat_map nodeIds cs
  | None => []
  end.

Definition preorderIds (forest : list MenuNode) : list Z :=
  List.flat_map nodeIds forest.

(** Identifiers of the top-level nodes of a forest. *)
Definition topIds (forest : list MenuNode) : list Z :=
  (λ n, id (item n)) <$> forest.

(** The parent a record is attached to, looked up by the record's identifier. *)
Definition parentOf (items : list MenuItem) (x : Z) : option Z :=
  it ← List.find (λ it, id it =? x) items;
  attachTarget (indexItems items) it.

(** Number of parent links from [x] up to a record placed at the root. *)
Fixpoint chainLen (items : list MenuItem) (fuel : nat) (x : Z) : option nat :=
  match fuel with
  | O => None
  | S fuel' =>
      match parentOf items x with
      | None => Some O
      | Some p => S <$> chainLen items fuel' p
      end
  end.

(** No record is its own ancestor: every parent chain ends at a root.  A
    chain through distinct records has at most [length items] of them. *)
Definition acyclicParents (items : list MenuItem) : bool :=
  forallb (λ it, bool_decide (is_Some (chainLen items (length items) (id it)))) items.

(** Length of the parent chain of [x], or [0] where the chain does not end. *)
Definition depthOf (items : list MenuItem) (x : Z) : nat :=
  default O (chainLen items (length items) x).

(** Ascending display order, at one level and at every level. *)
Fixpoint ascending (l : list Z) : bool :=
  match l with
  | [] => true
  | x :: l' => match l' with [] => true | y :: _ => (x <=? y) && ascending l' end
  end.

Definition orderOf (n : MenuNode) : Z := orderNum (item n).

Fixpoint nodeSorted (n : MenuNode) : bool :=
  match children n with
  | Some cs => ascending (orderOf <$> cs) && forallb nodeSorted cs
  | None => true
  end.

Definition levelsSorted (forest : list MenuNode) : bool :=
  ascending (orderOf <$> forest) && forallb nodeSorted forest.

(** The convention for view lookup, in the words of the design: [p] is
    [router] without its leading separator; the view is the exact file
    [<viewsRoot>/<p>.vue] if the table has it, else [<viewsRoot>/<p>/index.vue],
    else the 404 view. *)
Definition strips (router p : string) : Prop :=
  router = String "/"%char p ∨ ((∀ q, router ≠ String "/"%char q) ∧ p = router).

Inductive ViewConvention {L} (modules : gmap string L) (router : string)
  : View L → Prop :=
  | conv_exact p m :
      strips router p →
      modules !! ("/src/views/" +:+ p +:+ ".vue") = Some m →
      ViewConvention modules router (Found m)
  | conv_index p m :
      strips router p →
      modules !! ("/src/views/" +:+ p +:+ ".vue") = None →
      modules !! ("/src/views/" +:+ p +:+ "/index.vue") = Some m →
      ViewConvention modules router (Found m)
  | conv_missing p :
      strips router p →
      modules !! ("/src/views/" +:+ p +:+ ".vue") = None →
      modules !! ("/src/views/" +:+ p +:+ "/index.vue") = None →
      ViewConvention modules router NotFound404.

(** ** Sample menu lists *)

(** The two-record scenario: a directory with one navigable page. *)
Definition scenarioMenus : list MenuItem :=
  [ mkMenuItem 1 None "RK" None None 0 None 1 true false;
    mkMenuItem 2 (Some 1) "Supply" (Some "/rk/supply") None 1 None 1 true false ].

(** Two top-level records delivered in descending display order. *)
Definition unorderedMenus : list MenuItem :=
  [ mkMenuItem 1 None "B" None None 0 None 2 true false;
    mkMenuItem 2 None "A" None None 0 None 1 true false ].

(** Two records naming each other as parent. *)
Definition cyclicMenus : list MenuItem :=
  [ mkMenuItem 1 (Some 2) "A" None None 0 None 1 true false;
    mkMenuItem 2 (Some 1) "B" None None 0 None 2 true false ].

End MenuStore.

(** * What an awaited [http] call delivers *)

(** The promise of [http.post] after the response interceptor has run:
    fulfilled with the payload, or rejected. *)
Inductive Reply (A : Type) :=
  | Fulfilled (payload : A)
  | Failed (message : string).
Arguments Fulfilled {A} payload.
Arguments Failed {A} message.

(** Result of an [async] action: the returned value or the thrown error. *)
Inductive Result (A : Type) :=
  | Returned (value : A)
  | Threw (message : string).
Arguments Returned {A} value.
Arguments Threw {A} message.

(** * Session store *)

Module UserStore.

Record UserInfo := mkUserInfo {
  userId : Z;
  username : string;
  nickName : string;
  email : option string;
  phone : option string;
  avatar : option string;
  departmentId : option Z;
  departmentName : option string;
  roleIds : list Z;
  roles : list string
}.

(** Payload of [/v1/open/login] and [/v1/open/refreshToken]
    ([interface LoginResponse]). *)
Record LoginResponse := mkLoginResponse {
  lrToken : string;
  lrRefreshToken : option string
}.

(** Payload of [/v1/comm/person], with the fields [fetchUserInfo] reads. *)
Record PersonData := mkPersonData {
  pdId : Z;
  pdUsername : string;
  pdNickName : option string;
  pdEmail : option string;
  pdPhone : option string;
  pdAvatar : option string;
  pdDepartmentId : option Z;
  pdDepartmentName : option string;
  pdRoleIds : option (list Z);
  pdRoles : option (list string)
}.

(** Payload of [/v1/comm/perms]. *)
Record PermsData := mkPermsData {
  pdPerms : option (list string)
}.

(** A value kept in [localStorage]: a token string, or the JSON text of the
    profile written by [JSON.stringify(userInfo.value)]. *)
Inductive Stored :=
  | StoredText (s : string)
  | StoredProfile (u : UserInfo).

Definition TOKEN_KEY : string := "wa_token".
Definition REFRESH_TOKEN_KEY : string := "wa_refresh_token".
Definition USER_INFO_KEY : string := "wa_user_info".

(** The refs of the store, [localStorage], and the paths handed to
    [router.push]. *)
Record State := mkState {
  token : string;
  refreshToken : string;
  userInfo : option UserInfo;
  permissions : list string;
  localStorage : gmap string Stored;
  pushed : list string
}.

(** Getters. *)
Definition isLoggedIn (s : State) : bool := truthyStr (token s).

Definition isAdmin (s : State) : bool :=
  match userInfo s with
  | Some u => String.eqb (username u) "admin"
  | None => false                           (* undefined === 'admin' *)
  end.

(** [permissions.value.includes(p)] *)
Definition includes (l : list string) (p : string) : bool :=
  existsb (String.eqb p) l.

Definition hasPermission (s : State) (permission : string) : bool :=
  if isAdmin s then true else includes (permissions s) permission.

Definition hasAnyPermission (s : State) (perms : list string) : bool :=
  if isAdmin s then true else existsb (λ p, includes (permissions s) p) perms.

Definition hasAllPermissions (s : State) (perms : list string) : bool :=
  if isAdmin s then true else forallb (λ p, includes (permissions s) p) perms.

(** Actions.  Each takes the replies of the requests it awaits. *)

Definition userInfoOf (data : PersonData) : UserInfo :=
  mkUserInfo (pdId data) (pdUsername data)
    (match pdNickName data with
     | Some n => if truthyStr n then n else pdUsername data
     | None => pdUsername data
     end)
    (pdEmail data) (pdPhone data) (pdAvatar data)
    (pdDepartmentId data) (pdDepartmentName data)
    (default [] (pdRoleIds data)) (default [] (pdRoles data)).

Definition fetchUserInfo (person : Reply PersonData) (perms : Reply PermsData)
    (s : State) : State * Result UserInfo :=
  match person with
  | Failed e => (s, Threw e)
  | Fulfilled data =>
      let u := userInfoOf data in
      let s1 := mkState (token s) (refreshToken s) (Some u) (permissions s)
                        (localStorage s) (pushed s) in
      match perms with
      | Failed e => (s1, Threw e)
      | Fulfilled permsData =>
          (mkState (token s1) (refreshToken s1) (Some u)
                   (default [] (pdPerms permsData))
                   (<[USER_INFO_KEY := StoredProfile u]> (localStorage s1))
                   (pushed s1),
           Returned u)
      end
  end.

(** [localStorage.setItem(TOKEN_KEY, data.token)] and, for a truthy
    [data.refreshToken], [localStorage.setItem(REFRESH_TOKEN_KEY, ...)]. *)
Definition saveTokens (data : LoginResponse) (ls : gmap string Stored)
  : gmap string Stored :=
  let ls1 := <[TOKEN_KEY := StoredText (lrToken data)]> ls in
  match lrRefreshToken data with
  | Some r => if truthyStr r then <[REFRESH_TOKEN_KEY := StoredText r]> ls1 else ls1
  | None => ls1
  end.

(** [a || b] on an optional string. *)
Definition orElse (a : option string) (b : string) : string :=
  match a with
  | Some r => if truthyStr r then r else b
  | None => b
  end.

Definition login (reply : Reply LoginResponse)
    (person : Reply PersonData) (perms : Reply PermsData)
    (s : State) : State * Result LoginResponse :=
  match reply with
  | Failed e => (s, Threw e)
  | Fulfilled data =>
      let s1 := mkState (lrToken data) (orElse (lrRefreshToken data) "")
                        (userInfo s) (permissions s)
                        (saveTokens data (localStorage s)) (pushed s) in
      match fetchUserInfo person perms s1 with
      | (s2, Threw e) => (s2, Threw e)
      | (s2, Returned _) => (s2, Returned data)
      end
  end.

Definition refreshUserToken (reply : Reply LoginResponse) (s : State)
  : State * Result LoginResponse :=
  if negb (truthyStr (refreshToken s)) then (s, Threw "No refresh token")
  else
    match reply with
    | Failed e => (s, Threw e)
    | Fulfilled data =>
        (mkState (lrToken data) (orElse (lrRefreshToken data) (refreshToken s))
                 (userInfo s) (permissions s)
                 (saveTokens data (localStorage s)) (pushed s),
         Returned data)
    end.

Definition logout (s : State) : State :=
  mkState "" "" None []
          (delete USER_INFO_KEY
             (delete REFRESH_TOKEN_KEY (delete TOKEN_KEY (localStorage s))))
          (pushed s ++ ["/login"]).

(** The operations of the store, with the replies they consume. *)
Inductive Op :=
  | OpLogin (reply : Reply LoginResponse)
            (person : Reply PersonData) (perms : Reply PermsData)
  | OpFetchUserInfo (person : Reply PersonData) (perms : Reply PermsData)
  | OpRefresh (reply : Reply LoginResponse)
  | OpLogout.

Definition run (op : Op) (s : State) : State :=
  match op with
  | OpLogin reply person perms => (login reply person perms s).1
  | OpFetchUserInfo person perms => (fetchUserInfo person perms s).1
  | OpRefresh reply => (refreshUserToken reply s).1
  | OpLogout => logout s
  end.

(** ** Vocabulary for the statements about the session *)

Definition tokenPresent (s : State) : Prop := token s ≠ "".
Definition profilePresent (s : State) : Prop := userInfo s ≠ None.

(** The server hands out a non-empty token. *)
Definition issuesToken (reply : Reply LoginResponse) : Prop :=
  match reply with
  | Fulfilled data => lrToken data ≠ ""
  | Failed _ => True
  end.

(** An operation as the application invokes it: login and refresh receive
    non-empty tokens, and the profile is only fetched for a session that
    holds a token (the navigation guard checks [isLoggedIn] first). *)
Definition admissible (op : Op) (s : State) : Prop :=
  match op with
  | OpLogin reply _ _ => issuesToken reply
  | OpFetchUserInfo _ _ => tokenPresent s
  | OpRefresh reply => issuesToken reply
  | OpLogout => True
  end.

(** ** Sample sessions *)

Definition emptyState : State := mkState "" "" None [] ∅ [].

Definition adminProfile : UserInfo :=
  mkUserInfo 1 "admin" "Administrator" None None None None None [] [].

Definition clerkProfile : UserInfo :=
  mkUserInfo 7 "clerk" "Clerk" None None None None None [] [].

Definition clerkPerson : PersonData :=
  mkPersonData 7 "clerk" None None None None None None None None.

Definition adminSession : State :=
  mkState "t0" "r0" (Some adminProfile) []
          (<[USER_INFO_KEY := StoredProfile adminProfile]>
             (<[REFRESH_TOKEN_KEY := StoredText "r0"]>
                (<[TOKEN_KEY := StoredText "t0"]> ∅))) [].

Definition clerkSession : State :=
  mkState "t1" "r1" (Some clerkProfile) ["rk:supply:list"]
          (<[USER_INFO_KEY := StoredProfile clerkProfile]>
             (<[REFRESH_TOKEN_KEY := StoredText "r1"]>
                (<[TOKEN_KEY := StoredText "t1"]> ∅))) [].

(** A session after a login that delivered no refresh token. *)
Definition tokenWithoutRefresh : State :=
  mkState "t1" "" (Some clerkProfile) ["rk:supply:list"]
          (<[USER_INFO_KEY := StoredProfile clerkProfile]>
             (<[TOKEN_KEY := StoredText "t1"]> ∅)) [].

End UserStore.

(** * Response interceptors of the three HTTP clients *)

Module Request.

(** A response body as the interceptor sees it ([response.data]). *)
#[local] Unset Elimination Schemes.
Inductive JsValue :=
  | JsUndefined
  | JsNull
  | JsBool (b : bool)
  | JsNum (n : Z)
  | JsStr (s : string)
  | JsArr (elems : list JsValue)
  | JsObj (fields : list (string * JsValue)).
#[local] Set Elimination Schemes.

(** Own property [key] of an object literal; a repeated key keeps its last
    value. *)
Fixpoint lookupField (key : string) (fields : list (string * JsValue))
  : option JsValue :=
  match fields with
  | [] => None
  | (k, v) :: rest =>
      match lookupField key rest with
      | Some v' => Some v'
      | None => if String.eqb key k then Some v else None
      end
  end.

(** [v.key]: [None] is the TypeError raised on [undefined] and [null]; a
    missing property reads as [undefined]. *)
Definition getProp (v : JsValue) (key : string) : option JsValue :=
  match v with
  | JsUndefined | JsNull => None
  | JsObj fields => Some (default JsUndefined (lookupField key fields))
  | _ => Some JsUndefined
  end.

Definition truthy (v : JsValue) : bool :=
  match v with
  | JsUndefined | JsNull => false
  | JsBool b => b
  | JsNum n => truthyNum n
  | JsStr s => truthyStr s
  | JsArr _ | JsObj _ => true
  end.

(** [a || b] *)
Definition orElse (a b : JsValue) : JsValue := if truthy a then a else b.

(** [v === 1000] *)
Definition isSuccessCode (v : JsValue) : bool :=
  match v with JsNum n => n =? 1000 | _ => false end.

(** What the caller of the client gets: the value the promise is fulfilled
    with, a rejection with [new Error(reason)], or the TypeError of a
    property access on [undefined]/[null]. *)
Inductive Outcome :=
  | Resolved (value : JsValue)
  | Rejected (reason : JsValue)
  | TypeError.

Definition SUCCESS_CODE : Z := 1000.
Definition BUSINESS_ERROR_CODE : Z := 1001.

(** [claude_code/frontend/src/api/request.ts], fulfilled-response handler.
    The first component is the text shown by [ElMessage.error], if any. *)
Definition requestOnResponse (data : JsValue) : option JsValue * Outcome :=
  match getProp data "code" with
  | None => (None, TypeError)
  | Some (JsNum code) =>                        (* typeof data.code === 'number' *)
      let message := default JsUndefined (getProp data "message") in
      if code =? SUCCESS_CODE then
        (None, Resolved (default JsUndefined (getProp data "data")))
      else if code =? BUSINESS_ERROR_CODE then
        (Some (orElse message (JsStr "操作失败")),
         Rejected (orElse message (JsStr "操作失败")))
      else
        (Some (orElse message (JsStr "请求失败")),
         Rejected (orElse message (JsStr "请求失败")))
  | Some _ => (None, Resolved data)             (* non-standard response *)
  end.

(** [qwn_code/frontend/src/api/http.ts], fulfilled-response handler:
    [const { code, message } = response.data]. *)
Definition apiClientOnResponse (data : JsValue) : Outcome :=
  match getProp data "code", getProp data "message" with
  | Some code, Some message =>
      if negb (isSuccessCode code) then Rejected (orElse message (JsStr "请求失败"))
      else Resolved data                        (* return response.data *)
  | _, _ => TypeError
  end.

(** [data && typeof data === 'object' && 'code' in data] *)
Definition hasCode (data : JsValue) : bool :=
  match data with
  | JsObj fields => bool_decide (is_Some (lookupField "code" fields))
  | _ => false
  end.

(** The codex client ([frontend/src/service/http.ts]), fulfilled-response
    handler. *)
Definition httpOnResponse (data : JsValue) : Outcome :=
  if hasCode data then
    if isSuccessCode (default JsUndefined (getProp data "code")) then
      Resolved (default JsUndefined (getProp data "result"))
    else
      Rejected (orElse (default JsUndefined (getProp data "message"))
                       (JsStr "业务错误"))
  else Resolved data.

(** ** Vocabulary: envelopes *)

(** [data] is an object whose [code] is the number [code]. *)
Definition envelopeCode (data : JsValue) (code : Z) : Prop :=
  ∃ fields, data = JsObj fields ∧ lookupField "code" fields = Some (JsNum code).

Definition field (data : JsValue) (key : string) : JsValue :=
  default JsUndefined (getProp data key).

Definition successEnvelope : JsValue :=
  JsObj [("code", JsNum 1000); ("message", JsStr "ok");
         ("result", JsNum 7); ("data", JsNum 7)].

Definition errorEnvelope : JsValue :=
  JsObj [("code", JsNum 1001); ("message", JsStr "name taken");
         ("result", JsNull); ("data", JsNull)].

End Request.

(** * Router: route table and navigation guard *)

Module Router.

Import MenuStore.

(** The records registered under the [Layout] route.

    [router.addRoute('Layout', route)] belongs to vue-router.  Its contract,
    as far as the guard depends on it: the path is parsed first and a path
    the parser rejects raises an error ([accepts] says which paths parse); a
    record that carries the name of the parent it is added under raises an
    error as well (the router refuses a route named like one of its
    ancestors, and [Layout] has no ancestor but itself); a record with a
    (truthy) name that is already registered replaces the registered one;
    otherwise the record is added.  An error leaves the table as it was. *)
Definition removeRoute (name : string) (table : list RouteRecord) : list RouteRecord :=
  List.filter (λ r, negb (String.eqb (routeName r) name)) table.

(** The router takes [route] as a child of the record named [parentName]. *)
Definition admits (accepts : string → bool) (parentName : string)
    (route : RouteRecord) : bool :=
  accepts (routePath route) && negb (String.eqb (routeName route) parentName).

Definition addRoute (accepts : string → bool) (parentName : string)
    (table : list RouteRecord) (route : RouteRecord) : option (list RouteRecord) :=
  if admits accepts parentName route then
    Some ((if truthyStr (routeName route) then removeRoute (routeName route) table
           else table) ++ [route])
  else None.

(** [dynamicRoutes.forEach(route => router.addRoute('Layout', route))]: the
    table after the loop, and whether the loop ran to its end. *)
Fixpoint registerRoutes (accepts : string → bool) (dynamicRoutes : list RouteRecord)
    (table : list RouteRecord) : list RouteRecord * bool :=
  match dynamicRoutes with
  | [] => (table, true)
  | route :: rest =>
      match addRoute accepts "Layout" table route with
      | Some table' => registerRoutes accepts rest table'
      | None => (table, false)
      end
  end.

(** The target of a navigation ([to]). *)
Record RouteLocation := mkRouteLocation {
  path : string;
  fullPath : string;
  meta : RouteMeta
}.

(** The argument the guard hands to [next]. *)
Inductive Next :=
  | NextProceed                              (* next() *)
  | NextPath (p : string)                    (* next('/…') *)
  | NextLoginRedirect (redirect : string)    (* next({ path: '/login', query: { redirect } }) *)
  | NextRetry (to : RouteLocation).          (* next({ ...to, replace: true }) *)

(** What the guard reads and writes: both stores and the route table. *)
Record World := mkWorld {
  user : UserStore.State;
  menus : MenuGraph;
  table : list RouteRecord
}.

(** Replies of the three requests hydration awaits. *)
Record Server := mkServer {
  person : Reply UserStore.PersonData;
  perms : Reply UserStore.PermsData;
  menuList : Reply (option (list MenuItem))   (* data || [] *)
}.

(** [menuStore.fetchMenus()] *)
Definition fetchMenus (reply : Reply (option (list MenuItem))) (old : MenuGraph)
  : MenuGraph * Result unit :=
  match reply with
  | Failed e => (old, Threw e)
  | Fulfilled data => (buildMenuTree (default [] data), Returned ())
  end.

(** [menuStore.generateRoutes()] on the stored object graph.  A reference
    cycle below the roots makes [traverse] recurse until the engine raises
    a RangeError. *)
Definition generateRoutesOf (g : MenuGraph) : Result (list RouteRecord) :=
  match treeOf g with
  | Some forest => Returned (generateRoutes forest)
  | None => Threw "Maximum call stack size exceeded"
  end.

(** The [try] block of the guard: the world it leaves behind and whether
    it ran to its end. *)
Definition hydrate (accepts : string → bool) (srv : Server) (w : World)
  : World * bool :=
  match UserStore.fetchUserInfo (person srv) (perms srv) (user w) with
  | (u1, Threw _) => (mkWorld u1 (menus w) (table w), false)
  | (u1, Returned _) =>
      match fetchMenus (menuList srv) (menus w) with
      | (g, Threw _) => (mkWorld u1 g (table w), false)
      | (g, Returned _) =>
          match generateRoutesOf g with
          | Threw _ => (mkWorld u1 g (table w), false)
          | Returned dynamicRoutes =>
              let '(t, ok) := registerRoutes accepts dynamicRoutes (table w) in
              (mkWorld u1 g t, ok)
          end
      end
  end.

Definition isPublic (to : RouteLocation) : bool :=
  match metaPublic (meta to) with Some b => b | None => false end.

(** [router.beforeEach(async (to, from, next) => …)]: the world after the
    guard and the argument of the one [next] call it makes.  The progress
    bar and the document title, which no branch reads, are left out. *)
Definition beforeEach (accepts : string → bool) (srv : Server)
    (to : RouteLocation) (w : World) : World * Next :=
  if isPublic to then
    if String.eqb (path to) "/login" && UserStore.isLoggedIn (user w)
    then (w, NextPath "/")
    else (w, NextProceed)
  else if negb (UserStore.isLoggedIn (user w)) then
    (w, NextLoginRedirect (fullPath to))
  else
    match UserStore.userInfo (user w) with
    | None =>
        match hydrate accepts srv w with
        | (w', true) => (w', NextRetry to)
        | (w', false) =>
            (mkWorld (UserStore.logout (user w')) (menus w') (table w'),
             NextPath "/login")
        end
    | Some _ =>
        match metaPerms (meta to) with
        | Some p =>
            if truthyStr p && negb (UserStore.hasPermission (user w) p)
            then (w, NextPath "/403")
            else (w, NextProceed)
        | None => (w, NextProceed)
        end
    end.

(** ** Vocabulary for the statements about the guard and the route table *)

(** A step of hydration fails: one of the three requests is rejected, the
    menu graph cannot be traversed, or the router rejects a synthesized
    route, for its path or for carrying the name of the layout route. *)
Definition hydrationFails (accepts : string → bool) (srv : Server) : Prop :=
  (∃ e, person srv = Failed e)
  ∨ (∃ e, perms srv = Failed e)
  ∨ (∃ e, menuList srv = Failed e)
  ∨ (∃ data, menuList srv = Fulfilled data ∧
       match generateRoutesOf (buildMenuTree (default [] data)) with
       | Threw _ => True
       | Returned dynamicRoutes =>
           ∃ r, r ∈ dynamicRoutes
                ∧ (accepts (routePath r) = false ∨ routeName r = "Layout")
       end).

(** Items of a forest in pre-order. *)
Fixpoint nodeItems (n : MenuNode) : list MenuItem :=
  item n ::
  match children n with
  | Some cs => List.flat_map nodeItems cs
  | None => []
  end.

Definition preorderItems (forest : list MenuNode) : list MenuItem :=
  List.flat_map nodeItems forest.

(** The navigable nodes of a forest. *)
Definition navigableItems (forest : list MenuNode) : list MenuItem :=
  List.filter isNavigable (preorderItems forest).

(** One run of route synthesis followed by registration. *)
Definition synthesize (accepts : string → bool) (forest : list MenuNode)
    (table : list RouteRecord) : list RouteRecord :=
  (registerRoutes accepts (generateRoutes forest) table).1.

(** Records of [table] whose name none of the [dynamicRoutes] carries. *)
Definition otherRoutes (dynamicRoutes table : list RouteRecord) : list RouteRecord :=
  List.filter
    (λ r, negb (bool_decide (routeName r ∈ routeName <$> dynamicRoutes))) table.

(** ** Samples *)

Definition acceptAll (p : string) : bool := true.

(** A session that holds a token but no profile yet. *)
Definition tokenOnly : UserStore.State :=
  UserStore.mkState "t1" "r1" None []
    (<[UserStore.REFRESH_TOKEN_KEY := UserStore.StoredText "r1"]>
       (<[UserStore.TOKEN_KEY := UserStore.StoredText "t1"]> ∅)) [].

Definition freshWorld : World := mkWorld tokenOnly (mkMenuGraph ∅ []) [].

Definition supplyPage : RouteLocation :=
  mkRouteLocation "/rk/supply" "/rk/supply"
    (mkRouteMeta (Some "Supply") None None None None).

Definition menuDown : Server :=
  mkServer (Fulfilled UserStore.clerkPerson)
           (Fulfilled (UserStore.mkPermsData None))
           (Failed "Network Error").

(** Two navigable pages under different directories that carry the same
    display name. *)
Definition sameNameForest : list MenuNode :=
  [ Node (mkMenuItem 1 None "List" (Some "/rk/supply") None 1 None 1 true false) (Some []);
    Node (mkMenuItem 2 None "List" (Some "/rk/demand") None 1 None 2 true false) (Some []) ].

Definition scenarioForest : list MenuNode :=
  [ Node (mkMenuItem 1 None "RK" None None 0 None 1 true false)
      (Some [ Node (mkMenuItem 2 (Some 1) "Supply" (Some "/rk/supply") None 1 None 1 true false)
                (Some []) ]) ].

(** A navigable page whose record carries an empty name. *)
Definition namelessForest : list MenuNode :=
  [ Node (mkMenuItem 1 None "" (Some "/rk/supply") None 1 None 1 true false) (Some []) ].

(** A navigable page that carries the name of the layout route. *)
Definition layoutNamedForest : list MenuNode :=
  [ Node (mkMenuItem 1 None "Layout" (Some "/x") None 1 None 1 true false) (Some []) ].

(** A path with a parameter whose custom pattern is never closed, and a
    router whose parser rejects this path and takes every other. *)
Definition unclosedParam : string := "/:a(\)".

Definition rejectsUnclosed (p : string) : bool := negb (String.eqb p unclosedParam).

(** The scenario's menu list with one more page, whose path is
    [unclosedParam]. *)
Definition malformedMenus : list MenuItem :=
  scenarioMenus
  ++ [ mkMenuItem 9 None "Broken" (Some unclosedParam) None 1 None 9 true false ].

(** A server that answers the three requests of hydration, the menu request
    with [data]. *)
Definition allUp (data : list MenuItem) : Server :=
  mkServer (Fulfilled UserStore.clerkPerson)
           (Fulfilled (UserStore.mkPermsData (Some ["rk:supply:list"])))
           (Fulfilled (Some data)).

End Router.

(** * Further vocabulary for the menu tree *)

Module MenuChecks.

Import MenuStore.

(** The test of the visibility pass, on a record. *)
Definition shown (it : MenuItem) : bool :=
  isShow it && negb (type it =? 2).

(** [P] holds of a node and of every node below it. *)
Fixpoint nodeAll (P : MenuItem → bool) (n : MenuNode) : bool :=
  P (item n) &&
  match children n with
  | Some cs => forallb (nodeAll P) cs
  | None => true
  end.

Definition forestAll (P : MenuItem → bool) (forest : list MenuNode) : bool :=
  forallb (nodeAll P) forest.

(** The parent chain of [x] ends at a record placed at the root. *)
Definition chainEnds (items : list MenuItem) (x : Z) : Prop :=
  is_Some (chainLen items (length items) x).

(** The part of an object graph whose keys satisfy [chainEnds]. *)
Definition rootedPart (items : list MenuItem) (h : gmap Z MenuObj) : gmap Z MenuObj :=
  filter (λ kv, chainEnds items kv.1) h.

(** Top-level nodes of a forest that carry display order [k]. *)
Definition withOrder (k : Z) (forest : list MenuNode) : list MenuNode :=
  List.filter (λ n, orderOf n =? k) forest.

(** A cycle of three records below which a fourth hangs, beside a sound
    root with one child. *)
Definition partlyCyclicMenus : list MenuItem :=
  [ mkMenuItem 1 None "Root" None None 0 None 1 true false;
    mkMenuItem 2 (Some 1) "Page" (Some "/page") None 1 None 1 true false;
    mkMenuItem 3 (Some 5) "A" None None 0 None 1 true false;
    mkMenuItem 4 (Some 3) "B" None None 0 None 1 true false;
    mkMenuItem 5 (Some 4) "C" None None 0 None 1 true false;
    mkMenuItem 6 (Some 3) "D" (Some "/lost") None 1 None 1 true false ].

(** A forest with a hidden page, a permission marker and equal orders. *)
Definition mixedForest : list MenuNode :=
  [ Node (mkMenuItem 1 None "Sys" None None 0 None 2 true false)
      (Some [ Node (mkMenuItem 3 (Some 1) "Users" (Some "/system/user") None 1 None 2 true true) (Some []);
              Node (mkMenuItem 4 (Some 1) "Add" None (Some "sys:user:add") 2 None 1 true false) (Some []);
              Node (mkMenuItem 5 (Some 1) "Roles" (Some "/system/role") None 1 None 1 false false) (Some []) ]);
    Node (mkMenuItem 2 None "RK" None None 0 None 2 true false) (Some []);
    Node (mkMenuItem 6 None "Home" (Some "/home") None 1 None 1 true false) None ].

End MenuChecks.

(** * Root component: session check on mount ([App.vue]) *)

Module App.

(** [onMounted(async () => { if (userStore.token) { try { await
    userStore.fetchUserInfo() } catch (e) { userStore.logout() } } })] *)
Definition onMounted (person : Reply UserStore.PersonData)
    (perms : Reply UserStore.PermsData) (s : UserStore.State) : UserStore.State :=
  if truthyStr (UserStore.token s) then
    match UserStore.fetchUserInfo person perms s with
    | (s1, Threw _) => UserStore.logout s1
    | (s1, Returned _) => s1
    end
  else s.

End App.

(** * Vocabulary for the persisted session *)

Module Persisted.

Import UserStore.

(** The token in [localStorage] is the token in memory. *)
Definition tokenSynced (s : State) : Prop :=
  match localStorage s !! TOKEN_KEY with
  | Some (StoredText t) => token s = t
  | Some (StoredProfile _) => False
  | None => token s = ""
  end.

Definition sessionKeys : list string :=
  [TOKEN_KEY; REFRESH_TOKEN_KEY; USER_INFO_KEY].

End Persisted.

(** * Permission directive ([directives/permission.ts]) *)

Module Directive.

(** [binding.value] as the directive distinguishes it: a string, an array of
    permission codes, or anything else with its truthiness. *)
Inductive BindingValue :=
  | BindString (code : string)
  | BindArray (codes : list string)
  | BindOther (isTruthy : bool).

Definition bindingTruthy (value : BindingValue) : bool :=
  match value with
  | BindString code => truthyStr code
  | BindArray _ => true
  | BindOther b => b
  end.

(** [checkPermission(el, binding)]: whether the element is removed from the
    DOM.  [all] is [binding.modifiers.all]. *)
Definition checkPermission (s : UserStore.State) (value : BindingValue)
    (all : bool) : bool :=
  if negb (bindingTruthy value) then false            (* if (!value) return *)
  else
    let hasPermission :=
      match value with
      | BindString code => UserStore.hasPermission s code
      | BindArray codes =>
          if all then UserStore.hasAllPermissions s codes
          else UserStore.hasAnyPermission s codes
      | BindOther _ => false
      end in
    negb hasPermission.

End Directive.

(** * The claude client: request interceptor and rejected responses *)

Module RequestFlow.

Import Request.

Definition bearer (token : string) : string := "Bearer " +:+ token.

(** Request interceptor of [request.ts]: [config.headers] after it ran. *)
Definition requestOnRequest (s : UserStore.State) (headers : gmap string string)
  : gmap string string :=
  if truthyStr (UserStore.token s)
  then <["Authorization" := bearer (UserStore.token s)]> headers
  else headers.

(** The error axios rejects with: the response (status and body) if one
    arrived, and the error message. *)
Record HttpError := mkHttpError {
  response : option (Z * JsValue);
  message : string
}.

(** [getHttpErrorMessage(status)] *)
Definition getHttpErrorMessage (status : Z) : string :=
  if status =? 400 then "请求参数错误"
  else if status =? 401 then "未授权，请登录"
  else if status =? 403 then "拒绝访问"
  else if status =? 404 then "请求地址不存在"
  else if status =? 405 then "请求方法不允许"
  else if status =? 408 then "请求超时"
  else if status =? 500 then "服务器内部错误"
  else if status =? 501 then "服务未实现"
  else if status =? 502 then "网关错误"
  else if status =? 503 then "服务不可用"
  else if status =? 504 then "网关超时"
  else if status =? 505 then "HTTP版本不支持"
  else "请求失败 (" +:+ pretty status +:+ ")".

(** [AUTH_ERROR_CODES.includes(status)] *)
Definition isAuthStatus (status : Z) : bool := (status =? 401) || (status =? 403).

(** [s.includes(part)] *)
Definition includesText (s part : string) : bool :=
  bool_decide (is_Some (String.index 0 part s)).

(** [data?.message] *)
Definition optMessage (data : JsValue) : JsValue :=
  default JsUndefined (getProp data "message").

(** What the handlers of the client act on: the flag
    [window.__authErrorShowing], the confirm dialogs on screen, the error
    toasts shown so far, and the session store. *)
Record Page := mkPage {
  authErrorShowing : bool;
  openDialogs : nat;
  toasts : list JsValue;
  session : UserStore.State
}.

(** Rejected-response handler of [request.ts].  It ends in
    [Promise.reject(error)] on every path; the page after it is returned. *)
Definition requestOnError (error : HttpError) (pg : Page) : Page :=
  match response error with
  | Some (status, data) =>
      if isAuthStatus status then
        if negb (authErrorShowing pg)
        then mkPage true (S (openDialogs pg)) (toasts pg) (session pg)
        else pg
      else
        mkPage (authErrorShowing pg) (openDialogs pg)
               (toasts pg ++ [orElse (optMessage data)
                                     (JsStr (getHttpErrorMessage status))])
               (session pg)
  | None =>
      let text :=
        if includesText (message error) "timeout" then "请求超时，请稍后重试"
        else if includesText (message error) "Network Error"
             then "网络错误，请检查网络连接"
             else "请求失败，请稍后重试" in
      mkPage (authErrorShowing pg) (openDialogs pg)
             (toasts pg ++ [JsStr text]) (session pg)
  end.

(** The user answers the dialog with "relogin": the [then] callback
    ([userStore.logout(); router.push('/login')]) and the [finally] callback
    run. *)
Definition confirmDialog (pg : Page) : Page :=
  let u := UserStore.logout (session pg) in
  mkPage false (pred (openDialogs pg)) (toasts pg)
    (UserStore.mkState (UserStore.token u) (UserStore.refreshToken u)
       (UserStore.userInfo u) (UserStore.permissions u)
       (UserStore.localStorage u) (UserStore.pushed u ++ ["/login"])).

(** The user dismisses the dialog: only the [finally] callback runs. *)
Definition cancelDialog (pg : Page) : Page :=
  mkPage false (pred (openDialogs pg)) (toasts pg) (session pg).

Inductive PageEvent :=
  | ResponseFailed (error : HttpError)
  | DialogConfirmed
  | DialogCancelled.

(** One turn of the event loop.  A dialog can only be answered while one is
    on screen. *)
Definition step (pg : Page) (ev : PageEvent) : Page :=
  match ev with
  | ResponseFailed error => requestOnError error pg
  | DialogConfirmed => if (0 <? openDialogs pg)%nat then confirmDialog pg else pg
  | DialogCancelled => if (0 <? openDialogs pg)%nat then cancelDialog pg else pg
  end.

Definition idlePage (s : UserStore.State) : Page := mkPage false O [] s.

(** The event loop run over a sequence of events. *)
Definition runEvents (pg : Page) (events : list PageEvent) : Page :=
  foldl step pg events.

(** The flag is set exactly while one dialog is on screen. *)
Definition flagMatchesDialog (pg : Page) : Prop :=
  openDialogs pg = if authErrorShowing pg then 1%nat else 0%nat.

(** The error carries a response with status 401 or 403. *)
Definition isAuthError (error : HttpError) : bool :=
  match response error with
  | Some (status, _) => isAuthStatus status
  | None => false
  end.

Definition unauthorized : HttpError :=
  mkHttpError (Some (401, JsObj [("message", JsStr "token expired")]))
              "Request failed with status code 401".

Definition notFound : HttpError :=
  mkHttpError (Some (404, JsNull)) "Request failed with status code 404".

End RequestFlow.

(** * The qwn client: request interceptor and rejected responses *)

Module Qwn.

(** [localStorage] and [window.location.href]. *)
Record Browser := mkBrowser {
  storage : gmap string string;
  location : string
}.

(** Request interceptor of [api/http.ts]; [requestId] is the identifier the
    interceptor generates. *)
Definition apiClientOnRequest (b : Browser) (requestId : string)
    (headers : gmap string string) : gmap string string :=
  let headers1 :=
    match storage b !! "access_token" with
    | Some token =>
        if truthyStr token then <["Authorization" := RequestFlow.bearer token]> headers
        else headers
    | None => headers
    end in
  <["x-request-id" := requestId]> headers1.

(** Rejected-response handler of [api/http.ts]; [status] is
    [error.response?.status].  It re-rejects on every path. *)
Definition apiClientOnError (status : option Z) (b : Browser) : Browser :=
  match status with
  | Some code =>
      if code =? 401 then mkBrowser (delete "access_token" (storage b)) "/login"
      else b
  | None => b
  end.

Definition signedIn : Browser :=
  mkBrowser (<["refresh_token" := "r1"]> (<["access_token" := "a1"]> ∅)) "/rk".

End Qwn.

(** * The codex client: auth store, guard, interceptors *)

Module Codex.

(** The four [localStorage] entries of the store.  Only the store writes
    them: two token strings, the decimal text of the expiry and the JSON
    text of the user. *)
Record AuthStorage (U : Type) := mkAuthStorage {
  stToken : option string;
  stRefreshToken : option string;
  stExpire : option Z;
  stUser : option U
}.
Arguments mkAuthStorage {U} _ _ _ _.
Arguments stToken {U} _.
Arguments stRefreshToken {U} _.
Arguments stExpire {U} _.
Arguments stUser {U} _.

(** The state of [useAuthStore], the storage beside it, and the paths
    handed to [router.push]. *)
Record Auth (U : Type) := mkAuth {
  token : string;
  refreshToken : string;
  expire : Z;
  user : option U;
  persisted : AuthStorage U;
  pushed : list string
}.
Arguments mkAuth {U} _ _ _ _ _ _.
Arguments token {U} _.
Arguments refreshToken {U} _.
Arguments expire {U} _.
Arguments user {U} _.
Arguments persisted {U} _.
Arguments pushed {U} _.

(** [state: () => ({ token: getItem(TOKEN_KEY) || '', … })] *)
Definition initial {U} (ls : AuthStorage U) : Auth U :=
  mkAuth (default "" (stToken ls)) (default "" (stRefreshToken ls))
         (default 0 (stExpire ls)) (stUser ls) ls [].

Definition setToken {U} (tok : string) (refresh : option string)
    (exp : option Z) (a : Auth U) : Auth U :=
  let ls := persisted a in
  let a1 := mkAuth tok (refreshToken a) (expire a) (user a)
              (mkAuthStorage (Some tok) (stRefreshToken ls) (stExpire ls) (stUser ls))
              (pushed a) in
  let a2 :=
    match refresh with
    | Some r =>
        if truthyStr r then
          mkAuth (token a1) r (expire a1) (user a1)
            (mkAuthStorage (stToken (persisted a1)) (Some r)
               (stExpire (persisted a1)) (stUser (persisted a1)))
            (pushed a1)
        else a1
    | None => a1
    end in
  match exp with
  | Some e =>
      mkAuth (token a2) (refreshToken a2) e (user a2)
        (mkAuthStorage (stToken (persisted a2)) (stRefreshToken (persisted a2))
           (Some e) (stUser (persisted a2)))
        (pushed a2)
  | None => a2
  end.

Definition setUser {U} (u : option U) (a : Auth U) : Auth U :=
  mkAuth (token a) (refreshToken a) (expire a) u
    (mkAuthStorage (stToken (persisted a)) (stRefreshToken (persisted a))
       (stExpire (persisted a)) u)
    (pushed a).

Definition logout {U} (a : Auth U) : Auth U :=
  mkAuth "" "" 0 None (mkAuthStorage None None None None) (pushed a).

(** Request interceptor of the client; [uuid] is [crypto.randomUUID()]. *)
Definition httpOnRequest {U} (a : Auth U) (uuid : string)
    (headers : gmap string string) : gmap string string :=
  let headers1 :=
    if truthyStr (token a)
    then <["Authorization" := RequestFlow.bearer (token a)]> headers
    else headers in
  if truthyOptStr (headers1 !! "x-request-id") then headers1
  else <["x-request-id" := uuid]> headers1.

(** Rejected-response handler of the client; [status] is
    [error?.response?.status].  It re-rejects on every path. *)
Definition httpOnError {U} (status : option Z) (a : Auth U) : Auth U :=
  match status with
  | Some code =>
      if (code =? 401) || (code =? 403) then
        let a1 := logout a in
        mkAuth (token a1) (refreshToken a1) (expire a1) (user a1)
               (persisted a1) (pushed a1 ++ ["/login"])
      else a
  | None => a
  end.

(** [router/guards.ts], the argument of the one [next] call. *)
Definition beforeEach {U} (a : Auth U) (to : Router.RouteLocation) : Router.Next :=
  if Router.isPublic to then
    if truthyStr (token a) && String.eqb (Router.path to) "/login"
    then Router.NextPath "/"
    else Router.NextProceed
  else if negb (truthyStr (token a)) then Router.NextLoginRedirect (Router.fullPath to)
  else Router.NextProceed.

(** In-memory state and storage agree: a reload reproduces the session. *)
Definition synced {U} (a : Auth U) : Prop :=
  token a = default "" (stToken (persisted a))
  ∧ refreshToken a = default "" (stRefreshToken (persisted a))
  ∧ expire a = default 0 (stExpire (persisted a))
  ∧ user a = stUser (persisted a).

(** The operations of the store. *)
Inductive AuthOp (U : Type) :=
  | DoSetToken (tok : string) (refresh : option string) (exp : option Z)
  | DoSetUser (u : option U)
  | DoLogout
  | DoHttpError (status : option Z).
Arguments DoSetToken {U} _ _ _.
Arguments DoSetUser {U} _.
Arguments DoLogout {U}.
Arguments DoHttpError {U} _.

Definition apply {U} (a : Auth U) (op : AuthOp U) : Auth U :=
  match op with
  | DoSetToken tok refresh exp => setToken tok refresh exp a
  | DoSetUser u => setUser u a
  | DoLogout => logout a
  | DoHttpError status => httpOnError status a
  end.

End Codex.

Import MenuStore.

(** * Facts about the menu tree builder *)

Section BuildFacts.

Implicit Types (items l : list MenuItem) (m : gmap Z MenuObj) (k : Z).

Lemma index_fold_other m l k :
  k ∉ id <$> l → foldl insertNode m l !! k = m !! k.
Proof.
  revert m. induction l as [|a l IH]; intros m Hk; [done|].
  rewrite fmap_cons, not_elem_of_cons in Hk. destruct Hk as [Hka Hk].
  simpl. rewrite IH by done. unfold insertNode. by rewrite lookup_insert_ne.
Qed.

Lemma index_fold_dom m l k :
  is_Some (foldl insertNode m l !! k) ↔ is_Some (m !! k) ∨ k ∈ id <$> l.
Proof.
  revert m. induction l as [|a l IH]; intros m; simpl.
  - rewrite elem_of_nil. tauto.
  - rewrite IH, elem_of_cons. unfold insertNode.
    destruct (decide (id a = k)) as [->|Hne].
    + rewrite lookup_insert_eq. split; [intros _|intros _; left]; eauto.
    + rewrite lookup_insert_ne by done. split; intros [?|?]; auto.
      * destruct H; [congruence | auto].
Qed.

Lemma index_fold_lookup m l it :
  NoDup (id <$> l) → it ∈ l → foldl insertNode m l !! id it = Some (mkMenuObj it []).
Proof.
  revert m. induction l as [|a l IH]; intros m Hnd Hin; [by apply elem_of_nil in Hin|].
  rewrite fmap_cons in Hnd. apply NoDup_cons in Hnd as [Ha Hnd].
  apply elem_of_cons in Hin as [->|Hin]; simpl.
  - rewrite index_fold_other by done. unfold insertNode. by rewrite lookup_insert_eq.
  - by apply IH.
Qed.

Lemma indexItems_dom items k :
  is_Some (indexItems items !! k) ↔ k ∈ id <$> items.
Proof.
  unfold indexItems. rewrite index_fold_dom, lookup_empty.
  split; [intros [[? ?]|?]; done | auto].
Qed.

Lemma indexItems_lookup items it :
  NoDup (id <$> items) → it ∈ items →
  indexItems items !! id it = Some (mkMenuObj it []).
Proof. apply index_fold_lookup. Qed.

(** The attachment test only looks at the key set of the map, and the
    second pass never changes it. *)
Lemma attachTarget_ext m m' it :
  (∀ k, is_Some (m !! k) ↔ is_Some (m' !! k)) →
  attachTarget m it = attachTarget m' it.
Proof.
  intros H. unfold attachTarget. destruct (parentId it) as [p|]; [|done].
  by rewrite (bool_decide_ext _ _ (H p)).
Qed.

Lemma attachItem_dom acc it k :
  is_Some ((attachItem acc it).1 !! k) ↔ is_Some (acc.1 !! k).
Proof.
  unfold attachItem. destruct (attachTarget acc.1 it) as [p|]; simpl; [|done].
  rewrite lookup_alter. case_decide; subst; [|done].
  by rewrite fmap_is_Some.
Qed.

(** The children array of [k] and the root array after the second pass
    has run over [l], started on map [m] and root array [rs]. *)
Lemma attachItem_Some m rs a p :
  attachTarget m a = Some p →
  attachItem (m, rs) a = (alter (pushChild (id a)) p m, rs).
Proof. unfold attachItem. simpl. by intros ->. Qed.

Lemma attachItem_None m rs a :
  attachTarget m a = None → attachItem (m, rs) a = (m, rs ++ [id a]).
Proof. unfold attachItem. simpl. by intros ->. Qed.

Lemma attach_fold m0 m rs l :
  (∀ k, is_Some (m !! k) ↔ is_Some (m0 !! k)) →
  (foldl attachItem (m, rs) l).2
    = rs ++ (id <$> filter (λ it, attachTarget m0 it = None) l)
  ∧ ∀ k, (foldl attachItem (m, rs) l).1 !! k
    = (λ o, mkMenuObj (objItem o)
              (objChildren o ++ (id <$> filter (λ it, attachTarget m0 it = Some k) l)))
      <$> m !! k.
Proof.
  revert m rs. induction l as [|a l IH]; intros m rs Hdom.
  - simpl. split; [by rewrite app_nil_r|]. intros k.
    destruct (m !! k) as [[? ?]|]; simpl; [|done]. by rewrite app_nil_r.
  - change (foldl attachItem (m, rs) (a :: l))
      with (foldl attachItem (attachItem (m, rs) a) l).
    assert (Ht : attachTarget m a = attachTarget m0 a) by by apply attachTarget_ext.
    pose proof (attachItem_dom (m, rs) a) as Hd.
    destruct (attachTarget m0 a) as [p|] eqn:Hp.
    + rewrite (attachItem_Some _ _ _ _ Ht) in *. simpl in Hd.
      destruct (IH (alter (pushChild (id a)) p m) rs) as [IH1 IH2].
      { intros k. rewrite Hd. apply Hdom. }
      split.
      * rewrite IH1. rewrite filter_cons_False by congruence. done.
      * intros k. rewrite IH2, lookup_alter. case_decide; subst.
        -- rewrite filter_cons_True by done.
           destruct (m !! k) as [[? ?]|]; simpl; [|done].
           by rewrite <- app_assoc.
        -- rewrite filter_cons_False by congruence. done.
    + rewrite (attachItem_None _ _ _ Ht) in *.
      destruct (IH m (rs ++ [id a])) as [IH1 IH2]; [done|].
      split.
      * rewrite IH1, filter_cons_True by done. by rewrite fmap_cons, <- app_assoc.
      * intros k. rewrite IH2, filter_cons_False by congruence. done.
Qed.

End BuildFacts.

Lemma buildMenuTree_roots items : roots (buildMenuTree items) = rootIds items.
Proof.
  unfold buildMenuTree, rootIds. simpl.
  by destruct (attach_fold (indexItems items) (indexItems items) [] items) as [-> _].
Qed.

Lemma index_fold_children (m : gmap Z MenuObj) l k o :
  foldl insertNode m l !! k = Some o →
  m !! k = Some o ∨ (objChildren o = [] ∧ id (objItem o) = k ∧ objItem o ∈ l).
Proof.
  revert m. induction l as [|a l IH]; intros m H; simpl in H; [by left|].
  apply IH in H as [H|(?&?&?)]; [|right; set_solver].
  unfold insertNode in H. destruct (decide (id a = k)) as [<-|Hne].
  - rewrite lookup_insert_eq in H. inversion H; subst. right. set_solver.
  - rewrite lookup_insert_ne in H by done. by left.
Qed.

Lemma indexItems_obj items k o :
  indexItems items !! k = Some o →
  objChildren o = [] ∧ id (objItem o) = k ∧ objItem o ∈ items.
Proof.
  intros H. apply index_fold_children in H as [H|H]; [|done].
  by rewrite lookup_empty in H.
Qed.

Lemma buildMenuTree_heap items k :
  heap (buildMenuTree items) !! k
  = (λ o, mkMenuObj (objItem o) (childIds items k)) <$> indexItems items !! k.
Proof.
  unfold buildMenuTree, childIds. simpl.
  destruct (attach_fold (indexItems items) (indexItems items) [] items) as [_ ->]; [done|].
  destruct (indexItems items !! k) as [o|] eqn:Ho; simpl; [|done].
  apply indexItems_obj in Ho as (-> & _). done.
Qed.

Lemma buildMenuTree_dom items k :
  is_Some (heap (buildMenuTree items) !! k) ↔ k ∈ id <$> items.
Proof. by rewrite buildMenuTree_heap, fmap_is_Some, indexItems_dom. Qed.

Lemma unfoldRefs_nil k (h : gmap Z MenuObj) : unfoldRefs (S k) h [] = Some [].
Proof. done. Qed.

Lemma unfoldRefs_cons k (h : gmap Z MenuObj) r refs f :
  unfoldRefs (S k) h (r :: refs) = Some f ↔
  ∃ o kids rest, h !! r = Some o ∧ unfoldRefs k h (objChildren o) = Some kids
    ∧ unfoldRefs (S k) h refs = Some rest ∧ f = Node (objItem o) (Some kids) :: rest.
Proof.
  change (unfoldRefs (S k) h (r :: refs))
    with (n ← unfoldRef (unfoldRefs k h) h r;
          rest ← unfoldRefs (S k) h refs; Some (n :: rest)).
  generalize (unfoldRefs (S k) h refs) as R. intros R. unfold unfoldRef.
  destruct (h !! r) as [o|]; simpl; [|split; [done | by intros (?&?&?&?&_)]].
  destruct (unfoldRefs k h (objChildren o)) as [kids|] eqn:Hk; simpl.
  - destruct R as [rest|]; simpl.
    + split; [intros [= <-]; by exists o, kids, rest|].
      intros (?&?&?&[= <-]&?&[= <-]&->). congruence.
    + split; [done | by intros (?&?&?&_&_&?&_)].
  - split; [done|]. intros (?&?&?&[= <-]&?&_). congruence.
Qed.

Lemma preorderIds_cons n forest :
  preorderIds (n :: forest) = nodeIds n ++ preorderIds forest.
Proof. done. Qed.

Lemma nodeIds_node it kids :
  nodeIds (Node it (Some kids)) = id it :: preorderIds kids.
Proof. done. Qed.

(** * Object graphs that are forests

    [par] gives the object under which a reference is stored, [rank]
    grows along every [children] reference and stays below [M]. *)

Section Forest.

Context (h : gmap Z MenuObj) (par : Z → option Z) (rank : Z → nat) (M : nat).

Hypothesis Hkey : ∀ r o, h !! r = Some o → id (objItem o) = r.
Hypothesis Hkids : ∀ x y, y ∈ kidsOf h x → par y = Some x ∧ is_Some (h !! y).
Hypothesis Hup : ∀ x p, is_Some (h !! x) → par x = Some p →
  is_Some (h !! p) ∧ x ∈ kidsOf h p.
Hypothesis HkidsND : ∀ x, NoDup (kidsOf h x).
Hypothesis Hrank : ∀ x p, is_Some (h !! x) → par x = Some p → (rank p < rank x)%nat.
Hypothesis HM : ∀ x, is_Some (h !! x) → (rank x < M)%nat.

Lemma reaches_inv x z :
  reaches h x z ↔ x = z ∨ ∃ c, c ∈ kidsOf h x ∧ reaches h c z.
Proof.
  split.
  - intros H. apply rtc_inv in H. naive_solver.
  - intros [->|(c & Hc & H)]; [apply rtc_refl | by eapply rtc_l].
Qed.

Lemma reaches_rank a b : reaches h a b → (rank a ≤ rank b)%nat.
Proof.
  intros H. induction H as [|a c b Hc _ IH]; [lia|].
  apply Hkids in Hc as [Hp Hs]. specialize (Hrank _ _ Hs Hp). lia.
Qed.

Lemma reaches_comparable a b x :
  reaches h a x → reaches h b x → reaches h a b ∨ reaches h b a.
Proof.
  intros Ha. revert b. pattern x. revert x Ha. apply rtc_ind_r.
  - intros b Hb. by right.
  - intros y x Hay Hyx IH b Hb.
    apply rtc_inv_r in Hb as [->|(y' & Hby & Hy'x)].
    + left. by eapply rtc_r.
    + apply Hkids in Hyx as [Hyx _]. apply Hkids in Hy'x as [Hy'x _].
      assert (y = y') as <- by congruence. by apply IH.
Qed.

Lemma reaches_sibling p a b :
  a ∈ kidsOf h p → b ∈ kidsOf h p → reaches h a b → a = b.
Proof.
  intros Ha Hb H. apply rtc_inv_r in H as [->|(q & Haq & Hqb)]; [done|].
  apply Hkids in Hqb as [Hqb _]. destruct (Hkids _ _ Hb) as [Hpb _].
  assert (q = p) as -> by congruence.
  apply reaches_rank in Haq. destruct (Hkids _ _ Ha) as [Hpa Hsa].
  specialize (Hrank _ _ Hsa Hpa). lia.
Qed.

Lemma reaches_root a b : par b = None → reaches h a b → a = b.
Proof.
  intros Hb H. apply rtc_inv_r in H as [->|(q & _ & Hqb)]; [done|].
  apply Hkids in Hqb as [Hqb _]. congruence.
Qed.

(** What the unfolded forest contains. *)
Lemma unfoldRefs_elem k : ∀ refs f, unfoldRefs k h refs = Some f →
  ∀ x, x ∈ preorderIds f ↔ ∃ r, r ∈ refs ∧ reaches h r x.
Proof.
  induction k as [|k IHk]; [done|].
  induction refs as [|r refs IHr]; intros f Hf x.
  - rewrite unfoldRefs_nil in Hf. inversion Hf. set_solver.
  - apply unfoldRefs_cons in Hf as (o & kids & rest & Ho & Hk & Hrest & ->).
    rewrite preorderIds_cons, nodeIds_node, elem_of_app, elem_of_cons.
    rewrite (IHk _ _ Hk x), (IHr _ Hrest x), (Hkey _ _ Ho).
    assert (Hko : kidsOf h r = objChildren o) by (unfold kidsOf; by rewrite Ho).
    split.
    + intros [[->|(c & Hc & Hcx)]|(r' & Hr' & Hx)].
      * exists r. split; [set_solver | apply rtc_refl].
      * exists r. split; [set_solver|]. apply reaches_inv. right. exists c.
        by rewrite Hko.
      * exists r'. split; [set_solver | done].
    + intros (r' & Hr' & Hx). apply elem_of_cons in Hr' as [->|Hr'].
      * left. apply reaches_inv in Hx as [->|(c & Hc & Hx)]; [by left|].
        right. exists c. by rewrite <- Hko.
      * right. eauto.
Qed.

(** No identifier is visited twice. *)
Lemma unfoldRefs_NoDup k : ∀ refs f, unfoldRefs k h refs = Some f →
  NoDup refs →
  (∀ r1 r2 x, r1 ∈ refs → r2 ∈ refs → reaches h r1 x → reaches h r2 x → r1 = r2) →
  NoDup (preorderIds f).
Proof.
  induction k as [|k IHk]; [done|].
  induction refs as [|r refs IHr]; intros f Hf Hnd Hsep.
  - rewrite unfoldRefs_nil in Hf. inversion Hf. constructor.
  - pose proof Hf as Hf'.
    apply unfoldRefs_cons in Hf as (o & kids & rest & Ho & Hk & Hrest & ->).
    assert (Hko : kidsOf h r = objChildren o) by (unfold kidsOf; by rewrite Ho).
    apply NoDup_cons in Hnd as [Hr Hnd].
    rewrite preorderIds_cons, nodeIds_node, (Hkey _ _ Ho).
    apply NoDup_app. split_and!.
    + apply NoDup_cons. split.
      * intros Hin. apply (unfoldRefs_elem _ _ _ Hk) in Hin as (c & Hc & Hcr).
        rewrite <- Hko in Hc. apply reaches_rank in Hcr.
        destruct (Hkids _ _ Hc) as [Hp Hs]. specialize (Hrank _ _ Hs Hp). lia.
      * apply (IHk _ _ Hk); [rewrite <- Hko; apply HkidsND|].
        intros c1 c2 x Hc1 Hc2 H1 H2. rewrite <- Hko in Hc1, Hc2.
        destruct (reaches_comparable _ _ _ H1 H2) as [H|H].
        -- by eapply reaches_sibling.
        -- symmetry. by eapply reaches_sibling.
    + intros x Hx Hx'. apply (unfoldRefs_elem _ _ _ Hrest) in Hx' as (r' & Hr' & Hr'x).
      assert (reaches h r x) as Hrx.
      { apply elem_of_cons in Hx as [->|Hx]; [apply rtc_refl|].
        apply (unfoldRefs_elem _ _ _ Hk) in Hx as (c & Hc & Hcx).
        apply reaches_inv. right. exists c. by rewrite Hko. }
      assert (r = r') as <- by (eapply Hsep; [set_solver..|done|done]).
      done.
    + apply (IHr _ Hrest Hnd). intros r1 r2 x H1 H2. apply Hsep; set_solver.
Qed.

(** The walk ends within the fuel. *)
Lemma unfoldRefs_total k : ∀ refs, (0 < k)%nat →
  (∀ r, r ∈ refs → is_Some (h !! r) ∧ (M < rank r + k)%nat) →
  is_Some (unfoldRefs k h refs).
Proof.
  induction k as [|k IHk]; [lia|]. intros refs _.
  induction refs as [|r refs IHr]; intros Hrefs; [by eexists|].
  destruct (Hrefs r) as [[o Ho] Hr]; [set_solver|].
  destruct (IHr) as [rest Hrest]; [intros; apply Hrefs; set_solver|].
  pose proof (HM r (mk_is_Some _ _ Ho)) as HMr.
  destruct (IHk (objChildren o)) as [kids Hk]; [lia| |].
  { intros c Hc. assert (c ∈ kidsOf h r) as Hc' by (unfold kidsOf; by rewrite Ho).
    apply Hkids in Hc' as [Hp Hs]. split; [done|].
    specialize (Hrank _ _ Hs Hp). lia. }
  exists (Node (objItem o) (Some kids) :: rest). apply unfoldRefs_cons. naive_solver.
Qed.

(** Every object hangs below an object that has no parent. *)
Lemma reaches_from_root x :
  is_Some (h !! x) → ∃ r, is_Some (h !! r) ∧ par r = None ∧ reaches h r x.
Proof.
  remember (rank x) as n eqn:Hn. revert x Hn.
  induction (lt_wf n) as [n _ IH]. intros x -> Hx.
  destruct (par x) as [p|] eqn:Hp.
  - destruct (Hup _ _ Hx Hp) as [Hsp Hxp].
    destruct (IH (rank p) (Hrank _ _ Hx Hp) p eq_refl Hsp) as (r & Hr & Hpr & Hrp).
    exists r. split_and!; [done..|]. by eapply rtc_r.
  - exists x. split_and!; [done..|]. apply rtc_refl.
Qed.

(** The forest below the parentless objects lists every object once. *)
Lemma unfoldRefs_forest k refs ids f :
  NoDup refs → NoDup ids →
  (∀ r, r ∈ refs ↔ is_Some (h !! r) ∧ par r = None) →
  (∀ x, x ∈ ids ↔ is_Some (h !! x)) →
  unfoldRefs k h refs = Some f →
  preorderIds f ≡ₚ ids.
Proof.
  intros Hnd Hids Hrefs Hdom Hf. apply NoDup_Permutation; [|done|].
  - apply (unfoldRefs_NoDup _ _ _ Hf Hnd). intros r1 r2 x H1 H2 Hx1 Hx2.
    apply Hrefs in H1 as [_ H1]. apply Hrefs in H2 as [_ H2].
    destruct (reaches_comparable _ _ _ Hx1 Hx2) as [H|H].
    + by eapply reaches_root.
    + symmetry. by eapply reaches_root.
  - intros x. rewrite (unfoldRefs_elem _ _ _ Hf x), Hdom. split.
    + intros (r & Hr & Hrx). apply Hrefs in Hr as [Hr _].
      apply rtc_inv_r in Hrx as [<-|(q & _ & Hqx)]; [done|].
      by apply Hkids in Hqx as [_ ?].
    + intros Hx. destruct (reaches_from_root x Hx) as (r & Hr & Hpr & Hrx).
      exists r. split; [by apply Hrefs | done].
Qed.

End Forest.

(** * The graph the builder returns *)

Section BuiltGraph.

Context (items : list MenuItem).

Lemma childIds_elem x y :
  y ∈ childIds items x ↔
  ∃ it, it ∈ items ∧ id it = y ∧ attachTarget (indexItems items) it = Some x.
Proof.
  unfold childIds. rewrite list_elem_of_fmap. setoid_rewrite list_elem_of_filter.
  naive_solver.
Qed.

Lemma rootIds_elem y :
  y ∈ rootIds items ↔
  ∃ it, it ∈ items ∧ id it = y ∧ attachTarget (indexItems items) it = None.
Proof.
  unfold rootIds. rewrite list_elem_of_fmap. setoid_rewrite list_elem_of_filter.
  naive_solver.
Qed.

Lemma attachTarget_dom it p :
  attachTarget (indexItems items) it = Some p → p ∈ id <$> items.
Proof.
  unfold attachTarget. destruct (parentId it) as [q|]; [|done].
  destruct (truthyNum q); simpl; [|done]. case_bool_decide; [|done].
  intros [= <-]. by apply indexItems_dom.
Qed.

Lemma kidsOf_build x : kidsOf (heap (buildMenuTree items)) x = childIds items x.
Proof.
  unfold kidsOf. rewrite buildMenuTree_heap.
  destruct (indexItems items !! x) as [o|] eqn:Ho; [done|]. simpl.
  destruct (childIds items x) as [|y l] eqn:Hc; [done|].
  assert (y ∈ childIds items x) as Hy by (rewrite Hc; set_solver).
  apply childIds_elem in Hy as (it & _ & _ & Hit).
  apply attachTarget_dom, indexItems_dom in Hit. rewrite Ho in Hit. by destruct Hit.
Qed.

Lemma build_key r o :
  heap (buildMenuTree items) !! r = Some o → id (objItem o) = r.
Proof.
  rewrite buildMenuTree_heap. destruct (indexItems items !! r) as [o'|] eqn:Ho; [|done].
  intros [= <-]. simpl. by apply indexItems_obj in Ho as (_ & ? & _).
Qed.

Hypothesis Hids : NoDup (id <$> items).

Lemma find_by_id it :
  it ∈ items → List.find (λ it', id it' =? id it) items = Some it.
Proof.
  clear -Hids. induction items as [|a l IH]; intros Hin; [by apply elem_of_nil in Hin|].
  rewrite fmap_cons in Hids. apply NoDup_cons in Hids as [Ha Hnd]. simpl.
  apply elem_of_cons in Hin as [->|Hin].
  - by rewrite Z.eqb_refl.
  - destruct (Z.eqb_spec (id a) (id it)) as [Heq|_]; [|by apply IH].
    destruct Ha. rewrite Heq. by apply list_elem_of_fmap_2.
Qed.

Lemma parentOf_item it :
  it ∈ items → parentOf items (id it) = attachTarget (indexItems items) it.
Proof. intros H. unfold parentOf. by rewrite (find_by_id _ H). Qed.

Lemma childIds_parent x y : y ∈ childIds items x → parentOf items y = Some x.
Proof.
  intros (it & Hin & <- & Ht)%childIds_elem. by rewrite parentOf_item.
Qed.

Lemma childIds_NoDup x : NoDup (childIds items x).
Proof.
  unfold childIds. apply (sublist_NoDup _ _ Hids), fmap_sublist, sublist_filter.
Qed.

Lemma rootIds_NoDup : NoDup (rootIds items).
Proof.
  unfold rootIds. apply (sublist_NoDup _ _ Hids), fmap_sublist, sublist_filter.
Qed.

Lemma parentOf_up x p :
  x ∈ id <$> items → parentOf items x = Some p →
  p ∈ id <$> items ∧ x ∈ childIds items p.
Proof.
  intros (it & -> & Hin)%list_elem_of_fmap. rewrite parentOf_item by done. intros Ht.
  split; [by eapply attachTarget_dom|]. apply childIds_elem. eauto.
Qed.

Lemma rootIds_parent x :
  x ∈ rootIds items ↔ x ∈ id <$> items ∧ parentOf items x = None.
Proof.
  rewrite rootIds_elem, list_elem_of_fmap. split.
  - intros (it & Hin & <- & Ht). rewrite parentOf_item by done. eauto.
  - intros [(it & -> & Hin) Hp]. rewrite parentOf_item in Hp by done. eauto.
Qed.

Lemma build_size : size (heap (buildMenuTree items)) = length items.
Proof.
  rewrite <- size_dom.
  assert (dom (heap (buildMenuTree items)) = list_to_set (id <$> items)) as ->.
  { apply set_eq. intros x. by rewrite elem_of_dom, buildMenuTree_dom, elem_of_list_to_set. }
  by rewrite size_list_to_set, length_fmap.
Qed.

Lemma chainLen_mono f x d :
  chainLen items f x = Some d → chainLen items (S f) x = Some d.
Proof.
  revert x d. induction f as [|f IH]; intros x d; [done|].
  intros H. simpl in H. change (chainLen items (S (S f)) x)
    with (match parentOf items x with
          | None => Some O | Some p => S <$> chainLen items (S f) p end).
  destruct (parentOf items x) as [p|]; [|done].
  destruct (chainLen items f p) as [d'|] eqn:Hd; [|done].
  by rewrite (IH _ _ Hd).
Qed.

Lemma chainLen_lt f x d : chainLen items f x = Some d → (d < f)%nat.
Proof.
  revert x d. induction f as [|f IH]; intros x d; [done|]. simpl.
  destruct (parentOf items x) as [p|]; [|intros [= <-]; lia].
  destruct (chainLen items f p) as [d'|] eqn:Hd; [|done].
  intros [= <-]. apply IH in Hd. lia.
Qed.

Hypothesis Hacyclic : acyclicParents items = true.

Lemma acyclic_chain x :
  x ∈ id <$> items → is_Some (chainLen items (length items) x).
Proof.
  intros (it & -> & Hin)%list_elem_of_fmap.
  unfold acyclicParents in Hacyclic. rewrite forallb_forall in Hacyclic.
  apply list_elem_of_In, Hacyclic in Hin. by apply bool_decide_eq_true in Hin.
Qed.

Lemma depthOf_parent x p :
  x ∈ id <$> items → parentOf items x = Some p →
  (depthOf items p < depthOf items x)%nat.
Proof.
  intros Hx Hp. destruct (acyclic_chain x Hx) as [d Hd].
  unfold depthOf. rewrite Hd. simpl.
  destruct (length items) as [|n]; [done|].
  simpl in Hd. rewrite Hp in Hd.
  destruct (chainLen items n p) as [d'|] eqn:Hd'; [|done].
  injection Hd as <-. rewrite (chainLen_mono _ _ _ Hd'). simpl. lia.
Qed.

Lemma depthOf_lt x : x ∈ id <$> items → (depthOf items x < length items)%nat.
Proof.
  intros Hx. destruct (acyclic_chain x Hx) as [d Hd].
  unfold depthOf. rewrite Hd. simpl. by eapply chainLen_lt.
Qed.

(** With distinct identifiers and no parent cycle the walk from the roots
    ends and visits every record exactly once. *)
Lemma build_forest :
  ∃ forest, treeOf (buildMenuTree items) = Some forest
            ∧ preorderIds forest ≡ₚ id <$> items.
Proof.
  set (g := buildMenuTree items).
  assert (Hkey : ∀ r o, heap g !! r = Some o → id (objItem o) = r)
    by apply build_key.
  assert (Hk : ∀ x y, y ∈ kidsOf (heap g) x →
               parentOf items y = Some x ∧ is_Some (heap g !! y)).
  { intros x y. unfold g. rewrite kidsOf_build. intros Hy. split.
    - by apply childIds_parent.
    - apply buildMenuTree_dom. apply childIds_elem in Hy as (it & ? & <- & _).
      by apply list_elem_of_fmap_2. }
  assert (Hup : ∀ x p, is_Some (heap g !! x) → parentOf items x = Some p →
                is_Some (heap g !! p) ∧ x ∈ kidsOf (heap g) p).
  { intros x p Hx Hp. apply buildMenuTree_dom in Hx.
    destruct (parentOf_up _ _ Hx Hp) as [? ?]. split; [by apply buildMenuTree_dom|].
    unfold g. by rewrite kidsOf_build. }
  assert (Hnd : ∀ x, NoDup (kidsOf (heap g) x)).
  { intros x. unfold g. rewrite kidsOf_build. apply childIds_NoDup. }
  assert (Hr : ∀ x p, is_Some (heap g !! x) → parentOf items x = Some p →
               (depthOf items p < depthOf items x)%nat).
  { intros x p Hx. apply depthOf_parent. by apply buildMenuTree_dom. }
  assert (HM : ∀ x, is_Some (heap g !! x) → (depthOf items x < length items)%nat).
  { intros x Hx. apply depthOf_lt. by apply buildMenuTree_dom. }
  destruct (unfoldRefs_total _ _ _ _ Hkey Hk Hup Hnd Hr HM
              (S (size (heap g))) (roots g)) as [forest Hf]; [lia| |].
  { intros r Hin. unfold g in Hin. rewrite buildMenuTree_roots in Hin.
    apply rootIds_parent in Hin as [Hin _]. split; [by apply buildMenuTree_dom|].
    apply depthOf_lt in Hin as Hlt. unfold g. rewrite build_size. lia. }
  exists forest. split; [done|].
  assert (Hroots : NoDup (roots g)).
  { unfold g. rewrite buildMenuTree_roots. apply rootIds_NoDup. }
  apply (unfoldRefs_forest _ _ _ _ Hkey Hk Hup Hnd Hr HM
           (S (size (heap g))) (roots g) _ _ Hroots Hids); [| |exact Hf].
  - intros r. unfold g. by rewrite buildMenuTree_roots, rootIds_parent, buildMenuTree_dom.
  - intros x. unfold g. by rewrite buildMenuTree_dom.
Qed.

End BuiltGraph.

(** * The visibility pass *)

(** Induction over menu trees, with the hypothesis for every child. *)
Lemma MenuNode_forall_ind (P : MenuNode → Prop) :
  (∀ it, P (Node it None)) →
  (∀ it cs, Forall P cs → P (Node it (Some cs))) →
  ∀ n, P n.
Proof.
  intros Hleaf Hnode. fix IH 1. intros [it [cs|]]; [|apply Hleaf].
  apply Hnode. induction cs as [|c cs IHcs]; constructor; [apply IH | apply IHcs].
Qed.

Lemma visibleCopy_some it cs :
  visibleCopy (Node it (Some cs))
  = Node it (Some (sortBy byOrderNum (visibleCopy <$> List.filter isVisible cs))).
Proof.
  simpl. do 3 f_equal.
  induction cs as [|c cs IH]; [done|]. simpl.
  destruct (isVisible c); simpl; by rewrite IH.
Qed.

(** The function as the source writes it: filter, copy with filtered
    children, sort. *)
Lemma filterVisibleMenus_eq items :
  filterVisibleMenus items
  = sortBy byOrderNum
      ((λ n, Node (item n) (filterVisibleMenus <$> children n))
         <$> List.filter isVisible items).
Proof.
  unfold filterVisibleMenus at 1. f_equal. apply list_fmap_ext.
  intros _ [it [cs|]] _; [apply visibleCopy_some | done].
Qed.

Lemma ascending_cons x y l :
  ascending (x :: y :: l) = (x <=? y) && ascending (y :: l).
Proof. done. Qed.

Lemma insertBy_head x l :
  ∃ y l', insertBy byOrderNum x l = y :: l'
          ∧ (y = x ∨ ∃ l0, l = y :: l0 ∧ orderOf y < orderOf x).
Proof.
  destruct l as [|y l]; simpl; [by eauto|].
  change (byOrderNum x y) with (orderOf x - orderOf y).
  destruct (Z.leb_spec (orderOf x - orderOf y) 0); [by eauto|].
  eexists _, _. split; [done|]. right. eexists. split; [done|]. lia.
Qed.

Lemma insertBy_ascending x l :
  ascending (orderOf <$> l) = true →
  ascending (orderOf <$> insertBy byOrderNum x l) = true.
Proof.
  induction l as [|y l IH]; intros Hl; [done|]. simpl.
  change (byOrderNum x y) with (orderOf x - orderOf y).
  destruct (Z.leb_spec (orderOf x - orderOf y) 0) as [Hle|Hgt].
  - rewrite !fmap_cons, ascending_cons, andb_true_iff. split; [|done].
    apply Z.leb_le. lia.
  - assert (Hl' : ascending (orderOf <$> l) = true).
    { destruct l; [done|]. rewrite !fmap_cons, ascending_cons in Hl.
      by apply andb_true_iff in Hl as [_ ?]. }
    specialize (IH Hl').
    destruct (insertBy_head x l) as (z & l' & Heq & Hz). rewrite Heq in *.
    rewrite !fmap_cons, ascending_cons, andb_true_iff. split; [|done].
    apply Z.leb_le. destruct Hz as [->|(l0 & -> & _)]; [lia|].
    rewrite !fmap_cons, ascending_cons in Hl.
    apply andb_true_iff in Hl as [Hl _]. by apply Z.leb_le in Hl.
Qed.

Lemma sortBy_ascending l : ascending (orderOf <$> sortBy byOrderNum l) = true.
Proof. induction l as [|x l IH]; [done|]. simpl. by apply insertBy_ascending. Qed.

Lemma insertBy_Permutation {A} (cmp : A → A → Z) x l : insertBy cmp x l ≡ₚ x :: l.
Proof.
  induction l as [|y l IH]; [done|]. simpl. destruct (cmp x y <=? 0); [done|].
  rewrite IH. apply Permutation_swap.
Qed.

Lemma sortBy_Permutation {A} (cmp : A → A → Z) l : sortBy cmp l ≡ₚ l.
Proof.
  induction l as [|x l IH]; [done|]. simpl. by rewrite insertBy_Permutation, IH.
Qed.

Lemma sortBy_Forall {A} (cmp : A → A → Z) (P : A → Prop) l :
  Forall P l → Forall P (sortBy cmp l).
Proof. intros H. by rewrite sortBy_Permutation. Qed.

Lemma visibleCopy_sorted n : nodeSorted (visibleCopy n) = true.
Proof.
  induction n as [it|it cs IH] using MenuNode_forall_ind; [done|].
  rewrite visibleCopy_some. simpl. rewrite sortBy_ascending. simpl.
  apply forallb_forall. intros c Hc. apply list_elem_of_In in Hc.
  rewrite sortBy_Permutation in Hc.
  apply list_elem_of_fmap in Hc as (c' & -> & Hc').
  apply list_elem_of_In, filter_In in Hc' as [Hc' _].
  rewrite Forall_forall in IH. by apply IH, list_elem_of_In.
Qed.

Lemma filterVisibleMenus_sorted forest :
  levelsSorted (filterVisibleMenus forest) = true.
Proof.
  unfold levelsSorted, filterVisibleMenus. rewrite sortBy_ascending. simpl.
  apply forallb_forall. intros c Hc. apply list_elem_of_In in Hc.
  rewrite sortBy_Permutation in Hc.
  apply list_elem_of_fmap in Hc as (c' & -> & _). apply visibleCopy_sorted.
Qed.

(** * Menu tree: sibling order and the build/flatten round trip *)

Lemma unfoldRefs_top k (h : gmap Z MenuObj) refs f :
  (∀ r o, h !! r = Some o → id (objItem o) = r) →
  unfoldRefs k h refs = Some f → topIds f = refs.
Proof.
  intros Hkey. destruct k as [|k]; [done|]. revert f.
  induction refs as [|r refs IH]; intros f Hf.
  - rewrite unfoldRefs_nil in Hf. by inversion Hf.
  - apply unfoldRefs_cons in Hf as (o & kids & rest & Ho & _ & Hrest & ->).
    unfold topIds in *. rewrite fmap_cons, (IH _ Hrest). simpl.
    by rewrite (Hkey _ _ Ho).
Qed.

Lemma orphan_is_root items it :
  it ∈ items →
  (parentId it = None ∨ ∃ p, parentId it = Some p ∧ p ∉ id <$> items) →
  id it ∈ roots (buildMenuTree items).
Proof.
  intros Hin Hp. rewrite buildMenuTree_roots. apply rootIds_elem.
  exists it. split_and!; [done..|]. unfold attachTarget.
  destruct Hp as [->|(p & -> & Hp)]; [done|].
  case_bool_decide as Hs; [|by rewrite andb_false_r].
  by apply indexItems_dom in Hs.
Qed.

(** The two-record scenario: one root with one visible child, and a single
    synthesized route. *)
Example scenario_tree :
  treeOf (buildMenuTree scenarioMenus) = Some Router.scenarioForest.
Proof. by vm_compute. Qed.

Example scenario_filtered :
  filterVisibleMenus Router.scenarioForest = Router.scenarioForest.
Proof. by vm_compute. Qed.

Example scenario_routes :
  routePath <$> generateRoutes Router.scenarioForest = ["/rk/supply"].
Proof. by vm_compute. Qed.

(** A record whose parent identifier is [0] is placed at the root even when
    a record with identifier [0] exists: [0] is falsy. *)
Example parent_zero_is_root :
  roots (buildMenuTree
           [ mkMenuItem 0 None "Z" None None 0 None 1 true false;
             mkMenuItem 5 (Some 0) "C" None None 1 None 1 true false ]) = [0; 5].
Proof. by vm_compute. Qed.

(** C1, the unfiltered half of the claim fails: two root records delivered
    in descending display order stay in that order in the tree of
    [buildMenuTree]. *)
Lemma C1_unfiltered_not_sorted :
  NoDup (id <$> unorderedMenus)
  ∧ ∃ forest, treeOf (buildMenuTree unorderedMenus) = Some forest
              ∧ orderOf <$> forest = [2; 1]
              ∧ levelsSorted forest = false.
Proof.
  split; [apply (bool_decide_unpack _); by vm_compute|].
  eexists. split; [by vm_compute|]. by split.
Qed.

(** C1, as the code has it: the visibility pass returns a tree whose
    children are in ascending display order at every level, whatever tree it
    is given; the builder itself does not sort, it keeps the roots and every
    children array in the order of the input list. *)
Theorem C1_sibling_order (items : list MenuItem) :
  (∀ forest, levelsSorted (filterVisibleMenus forest) = true)
  ∧ roots (buildMenuTree items) = rootIds items
  ∧ ∀ k, kidsOf (heap (buildMenuTree items)) k = childIds items k.
Proof.
  split_and!.
  - apply filterVisibleMenus_sorted.
  - apply buildMenuTree_roots.
  - apply kidsOf_build.
Qed.

(** C2, as stated the claim fails: two records with distinct identifiers
    that name each other as parent are both attached, none reaches the root
    array, and the flattened tree is empty. *)
Lemma C2_cycle_is_lost :
  NoDup (id <$> cyclicMenus)
  ∧ treeOf (buildMenuTree cyclicMenus) = Some []
  ∧ ¬ (preorderIds [] ≡ₚ id <$> cyclicMenus).
Proof.
  split_and!; [apply (bool_decide_unpack _); by vm_compute | by vm_compute |].
  intros H. by apply Permutation_nil_l in H.
Qed.

(** C2, as the code has it: for distinct identifiers and parent references
    without a cycle, the tree of [buildMenuTree] exists and its pre-order
    flattening is a permutation of the input identifiers, without
    duplicates; a record whose parent is null or absent from the input is a
    root of the forest. *)
Theorem C2_build_then_flatten (items : list MenuItem) :
  NoDup (id <$> items) →
  acyclicParents items = true →
  ∃ forest,
    treeOf (buildMenuTree items) = Some forest
    ∧ preorderIds forest ≡ₚ id <$> items
    ∧ NoDup (preorderIds forest)
    ∧ ∀ it, it ∈ items →
        (parentId it = None ∨ ∃ p, parentId it = Some p ∧ p ∉ id <$> items) →
        id it ∈ topIds forest.
Proof.
  intros Hids Hacyc.
  destruct (build_forest items Hids Hacyc) as (forest & Hf & Hperm).
  exists forest. split_and!; [done..| |].
  - by rewrite Hperm.
  - intros it Hin Hp. unfold treeOf in Hf.
    rewrite (unfoldRefs_top _ _ _ _ (build_key items) Hf).
    by apply orphan_is_root.
Qed.

Lemma C2_build_then_flatten_witness :
  ∃ forest,
    treeOf (buildMenuTree scenarioMenus) = Some forest
    ∧ preorderIds forest ≡ₚ id <$> scenarioMenus
    ∧ NoDup (preorderIds forest)
    ∧ ∀ it, it ∈ scenarioMenus →
        (parentId it = None ∨ ∃ p, parentId it = Some p ∧ p ∉ id <$> scenarioMenus) →
        id it ∈ topIds forest.
Proof.
  apply (C2_build_then_flatten scenarioMenus).
  - apply (bool_decide_unpack _). vm_compute. exact I.
  - vm_compute. reflexivity.
Defined.

(** * Session store *)

Section Session.

Import UserStore.

Lemma admin_isAdmin (s : State) u :
  userInfo s = Some u → username u = "admin" → isAdmin s = true.
Proof. unfold isAdmin. by intros -> ->. Qed.

(** C5: in a session whose profile carries the administrator name the three
    permission queries answer [true] for every code and every list of
    codes, whatever the stored permissions are. *)
Theorem C5_admin_bypass (s : State) (u : UserInfo)
    (code : string) (codes : list string) :
  userInfo s = Some u →
  username u = "admin" →
  hasPermission s code = true
  ∧ hasAnyPermission s codes = true
  ∧ hasAllPermissions s codes = true.
Proof.
  intros Hu Hadmin. pose proof (admin_isAdmin s u Hu Hadmin) as H.
  unfold hasPermission, hasAnyPermission, hasAllPermissions. by rewrite H.
Qed.

Lemma C5_admin_bypass_witness :
  hasPermission adminSession "" = true
  ∧ hasAnyPermission adminSession [] = true
  ∧ hasAllPermissions adminSession [] = true.
Proof.
  apply (C5_admin_bypass adminSession adminProfile "" []); reflexivity.
Defined.

(** C10: without the administrator bypass the queries on the empty list are
    vacuous: all of nothing is granted, any of nothing is not. *)
Theorem C10_empty_list_queries (s : State) :
  isAdmin s = false →
  hasAllPermissions s [] = true ∧ hasAnyPermission s [] = false.
Proof.
  intros H. unfold hasAllPermissions, hasAnyPermission. by rewrite H.
Qed.

Lemma C10_empty_list_queries_witness :
  hasAllPermissions clerkSession [] = true ∧ hasAnyPermission clerkSession [] = false.
Proof. apply (C10_empty_list_queries clerkSession). reflexivity. Defined.

(** C3, as stated the claim fails: a login whose token request succeeds and
    whose profile request is rejected leaves the token without a profile. *)
Lemma C3_token_without_profile :
  let s := run (OpLogin (Fulfilled (mkLoginResponse "t1" (Some "r1")))
                        (Failed "Network Error")
                        (Fulfilled (mkPermsData None))) emptyState in
  token s = "t1" ∧ userInfo s = None ∧ ¬ (tokenPresent s ↔ profilePresent s).
Proof.
  simpl. split_and!; [done..|]. unfold tokenPresent, profilePresent. simpl.
  intros [H _]. by apply H.
Qed.

Lemma fetchUserInfo_token person perms (s : State) :
  token (fetchUserInfo person perms s).1 = token s.
Proof. unfold fetchUserInfo. by destruct person, perms. Qed.

Lemma login_token data person perms (s : State) :
  token (login (Fulfilled data) person perms s).1 = lrToken data.
Proof.
  unfold login.
  pose proof (fetchUserInfo_token person perms
    (mkState (lrToken data) (orElse (lrRefreshToken data) "") (userInfo s)
       (permissions s) (saveTokens data (localStorage s)) (pushed s))) as H.
  destruct (fetchUserInfo _ _ _) as [s2 [?|?]]; exact H.
Qed.

(** C3, as the code has it: under every operation a profile stays
    accompanied by a token, as long as the server hands out non-empty tokens
    and the profile is fetched for a session that holds one; logout leaves
    neither, and a login whose three requests succeed leaves both. *)
Theorem C3_session_invariant (op : Op) (s : State) :
  (profilePresent s → tokenPresent s) →
  admissible op s →
  (profilePresent (run op s) → tokenPresent (run op s))
  ∧ (op = OpLogout → ¬ tokenPresent (run op s) ∧ ¬ profilePresent (run op s))
  ∧ (∀ data pd qd, op = OpLogin (Fulfilled data) (Fulfilled pd) (Fulfilled qd) →
       tokenPresent (run op s) ∧ profilePresent (run op s)).
Proof.
  intros Hinv Hadm. split_and!.
  - destruct op as [reply person perms|person perms|reply|]; simpl in *.
    + destruct reply as [data|e]; [|done]. intros _.
      unfold tokenPresent. by rewrite login_token.
    + intros _. unfold tokenPresent. by rewrite fetchUserInfo_token.
    + unfold refreshUserToken. destruct (truthyStr (refreshToken s)); [|done].
      destruct reply as [data|e]; [|done]. by intros _.
    + unfold profilePresent. simpl. by intros [].
  - intros ->. unfold tokenPresent, profilePresent. simpl. split; by intros [].
  - intros data pd qd ->. simpl in *. unfold tokenPresent, profilePresent. by simpl.
Qed.

Lemma C3_session_invariant_witness :
  let op := OpLogin (Fulfilled (mkLoginResponse "t1" (Some "r1")))
                    (Fulfilled clerkPerson) (Fulfilled (mkPermsData None)) in
  (profilePresent (run op emptyState) → tokenPresent (run op emptyState))
  ∧ (op = OpLogout →
       ¬ tokenPresent (run op emptyState) ∧ ¬ profilePresent (run op emptyState))
  ∧ (∀ data pd qd, op = OpLogin (Fulfilled data) (Fulfilled pd) (Fulfilled qd) →
       tokenPresent (run op emptyState) ∧ profilePresent (run op emptyState)).
Proof.
  apply (C3_session_invariant
           (OpLogin (Fulfilled (mkLoginResponse "t1" (Some "r1")))
                    (Fulfilled clerkPerson) (Fulfilled (mkPermsData None)))
           emptyState).
  - unfold profilePresent. simpl. intros H. destruct H. reflexivity.
  - simpl. discriminate.
Defined.

(** C4, as stated the claim fails: a session that holds a token but no
    refresh token is left as it was by a refresh attempt; the store throws
    and does not log out. *)
Lemma C4_missing_refresh_token_keeps_session :
  let r := refreshUserToken (Failed "401") tokenWithoutRefresh in
  r = (tokenWithoutRefresh, Threw "No refresh token")
  ∧ token r.1 = "t1"
  ∧ r.1 ≠ logout tokenWithoutRefresh.
Proof. simpl. split_and!; [done..|]. intros H. by inversion H. Qed.

(** C4, as the code has it: when the refresh token is missing the refresh
    operation throws before any request is made, whatever the server would
    answer, and leaves the refs, [localStorage] and the router untouched. *)
Theorem C4_refresh_without_token (reply : Reply LoginResponse) (s : State) :
  refreshToken s = "" →
  refreshUserToken reply s = (s, Threw "No refresh token").
Proof. intros H. unfold refreshUserToken. by rewrite H. Qed.

Lemma C4_refresh_without_token_witness :
  refreshUserToken (Fulfilled (mkLoginResponse "t2" None)) tokenWithoutRefresh
  = (tokenWithoutRefresh, Threw "No refresh token").
Proof.
  apply (C4_refresh_without_token
           (Fulfilled (mkLoginResponse "t2" None)) tokenWithoutRefresh).
  reflexivity.
Defined.

End Session.

(** * Response envelope *)

Section Envelope.

Import Request.

Lemma envelope_getProp data code key :
  envelopeCode data code →
  getProp data "code" = Some (JsNum code)
  ∧ getProp data key = Some (field data key)
  ∧ hasCode data = true.
Proof.
  intros (fields & -> & Hc). unfold field, hasCode. simpl. rewrite Hc. simpl.
  by split_and!.
Qed.

(** C7, as stated the claim fails for the qwn client: on a success envelope
    it hands the whole envelope to the caller, not the payload. *)
Lemma C7_qwn_keeps_envelope :
  envelopeCode successEnvelope 1000
  ∧ apiClientOnResponse successEnvelope = Resolved successEnvelope
  ∧ successEnvelope ≠ field successEnvelope "result"
  ∧ successEnvelope ≠ field successEnvelope "data".
Proof.
  split_and!; [|done..]. eexists. split; [done|]. by vm_compute.
Qed.

(** C7, as the code has it: on an envelope with code 1000 the claude client
    returns its [data] field and the codex client its [result] field, while
    the qwn client returns the envelope itself; on any other numeric code
    all three reject with the server's message, or with a fixed text when
    that message is empty or missing. *)
Theorem C7_envelope (data : JsValue) (code : Z) :
  envelopeCode data code →
  if code =? 1000 then
    (requestOnResponse data).2 = Resolved (field data "data")
    ∧ httpOnResponse data = Resolved (field data "result")
    ∧ apiClientOnResponse data = Resolved data
  else
    (requestOnResponse data).2
      = Rejected (orElse (field data "message")
                         (JsStr (if code =? 1001 then "操作失败" else "请求失败")))
    ∧ httpOnResponse data = Rejected (orElse (field data "message") (JsStr "业务错误"))
    ∧ apiClientOnResponse data
      = Rejected (orElse (field data "message") (JsStr "请求失败")).
Proof.
  intros Henv.
  destruct (envelope_getProp data code "message" Henv) as (Hc & Hm & Hh).
  destruct (envelope_getProp data code "data" Henv) as (_ & Hd & _).
  destruct (envelope_getProp data code "result" Henv) as (_ & Hr & _).
  unfold requestOnResponse, httpOnResponse, apiClientOnResponse.
  rewrite Hc, Hm, Hh. simpl. unfold SUCCESS_CODE, BUSINESS_ERROR_CODE.
  destruct (code =? 1000) eqn:H1000; simpl.
  - by rewrite Hd, Hr.
  - by destruct (code =? 1001).
Qed.

Lemma C7_envelope_witness :
  (requestOnResponse errorEnvelope).2 = Rejected (JsStr "name taken")
  ∧ httpOnResponse errorEnvelope = Rejected (JsStr "name taken")
  ∧ apiClientOnResponse errorEnvelope = Rejected (JsStr "name taken").
Proof.
  apply (C7_envelope errorEnvelope 1001).
  eexists. split; reflexivity.
Defined.

End Envelope.

(** * Route synthesis and registration *)

Section Routes.

Import Router.

Context (accepts : string → bool).

Lemma traverseItem_navigable n :
  traverseItem n = routeOf <$> List.filter isNavigable (nodeItems n).
Proof.
  induction n as [it|it cs IH] using MenuNode_forall_ind.
  - simpl. rewrite app_nil_r. by destruct (isNavigable it).
  - simpl.
    assert (List.flat_map traverseItem cs
            = routeOf <$> List.filter isNavigable (List.flat_map nodeItems cs)) as ->.
    { induction IH as [|c cs Hc _ IHcs]; [done|]. simpl.
      by rewrite List.filter_app, fmap_app, Hc, IHcs. }
    by destruct (isNavigable it).
Qed.

(** One route descriptor per navigable node, in pre-order. *)
Lemma generateRoutes_navigable forest :
  generateRoutes forest = routeOf <$> navigableItems forest.
Proof.
  unfold generateRoutes, traverse, navigableItems, preorderItems.
  induction forest as [|n forest IH]; [done|]. simpl.
  by rewrite List.filter_app, fmap_app, traverseItem_navigable, IH.
Qed.

Lemma admits_true r :
  admits accepts "Layout" r = true
  ↔ accepts (routePath r) = true ∧ routeName r ≠ "Layout".
Proof.
  unfold admits. rewrite andb_true_iff, negb_true_iff.
  by destruct (String.eqb_spec (routeName r) "Layout"); naive_solver.
Qed.

Lemma admits_false r :
  admits accepts "Layout" r = false
  ↔ accepts (routePath r) = false ∨ routeName r = "Layout".
Proof.
  unfold admits. rewrite andb_false_iff, negb_false_iff.
  by destruct (String.eqb_spec (routeName r) "Layout"); naive_solver.
Qed.

Lemma registerRoutes_rejected rs t r :
  r ∈ rs → admits accepts "Layout" r = false → (registerRoutes accepts rs t).2 = false.
Proof.
  revert t. induction rs as [|a rs IH]; intros t Hin Hr; [by apply elem_of_nil in Hin|].
  simpl. unfold addRoute. destruct (admits accepts "Layout" a) eqn:Ha; [|done].
  apply elem_of_cons in Hin as [->|Hin]; [congruence|]. by apply IH.
Qed.

Lemma registerRoutes_accepted rs t :
  (∀ r, r ∈ rs → admits accepts "Layout" r = true) →
  (registerRoutes accepts rs t).2 = true.
Proof.
  revert t. induction rs as [|a rs IH]; intros t H; [done|]. simpl.
  unfold addRoute. rewrite H by set_solver. apply IH. intros; apply H; set_solver.
Qed.

Lemma otherRoutes_cons r rs t :
  otherRoutes rs (removeRoute (routeName r) t) = otherRoutes (r :: rs) t.
Proof.
  unfold otherRoutes, removeRoute. induction t as [|a t IH]; [done|]. simpl.
  destruct (String.eqb_spec (routeName a) (routeName r)) as [Heq|Hne]; simpl.
  - rewrite IH. rewrite bool_decide_eq_true_2; [done|]. rewrite Heq. set_solver.
  - rewrite IH. f_equal.
    destruct (decide (routeName a ∈ routeName <$> rs)) as [Hin|Hin].
    + rewrite !bool_decide_eq_true_2; [done| set_solver | done].
    + rewrite !bool_decide_eq_false_2; [done| set_solver | done].
Qed.

Lemma otherRoutes_app rs t1 t2 :
  otherRoutes rs (t1 ++ t2) = otherRoutes rs t1 ++ otherRoutes rs t2.
Proof. apply List.filter_app. Qed.

Lemma otherRoutes_self rs l :
  l ⊆ rs → otherRoutes rs l = [].
Proof.
  unfold otherRoutes. induction l as [|a l IH]; intros Hl; [done|]. simpl.
  rewrite bool_decide_eq_true_2; [apply IH; set_solver|].
  apply list_elem_of_fmap_2. set_solver.
Qed.

Lemma otherRoutes_idemp rs t : otherRoutes rs (otherRoutes rs t) = otherRoutes rs t.
Proof.
  unfold otherRoutes. induction t as [|a t IH]; [done|]. simpl.
  destruct (negb _) eqn:Ha; simpl; [rewrite Ha|]; by rewrite IH.
Qed.

Lemma otherRoutes_none t : otherRoutes [] t = t.
Proof.
  unfold otherRoutes. induction t as [|a t IHt]; [done|]. simpl. f_equal. exact IHt.
Qed.

(** The table after the registration loop, when the router takes every
    descriptor and the names are non-empty and distinct. *)
Lemma registerRoutes_table rs t :
  (∀ r, r ∈ rs → admits accepts "Layout" r = true) →
  (∀ r, r ∈ rs → truthyStr (routeName r) = true) →
  NoDup (routeName <$> rs) →
  registerRoutes accepts rs t = (otherRoutes rs t ++ rs, true).
Proof.
  revert t. induction rs as [|r rs IH]; intros t Hacc Hname Hnd.
  - simpl. by rewrite otherRoutes_none, app_nil_r.
  - rewrite fmap_cons in Hnd. apply NoDup_cons in Hnd as [Hr Hnd].
    simpl. unfold addRoute. rewrite Hacc, Hname by set_solver.
    rewrite IH; [|intros; apply Hacc; set_solver|intros; apply Hname; set_solver|done].
    f_equal. rewrite otherRoutes_app, otherRoutes_cons, <- app_assoc. f_equal.
    unfold otherRoutes. simpl. by rewrite bool_decide_eq_false_2.
Qed.

(** The table after the registration loop, when the names are non-empty:
    the loop hands a prefix [registered] of the descriptors to the router,
    the earlier records named like none of them stay, and what follows them
    does not depend on the earlier table. *)
Lemma registerRoutes_split rs :
  (∀ r, r ∈ rs → truthyStr (routeName r) = true) →
  ∃ registered,
    (∀ t, (registerRoutes accepts rs t).1
          = otherRoutes registered t ++ (registerRoutes accepts rs []).1)
    ∧ (registerRoutes accepts rs []).1 ⊆ registered.
Proof.
  induction rs as [|r rs IH]; intros Hname.
  - exists []. split; [|done]. intros t. simpl. by rewrite otherRoutes_none, app_nil_r.
  - simpl. unfold addRoute. destruct (admits accepts "Layout" r) eqn:Hr.
    + destruct IH as (reg & Ht & Hsub); [intros; apply Hname; set_solver|].
      rewrite Hname by set_solver. exists (r :: reg). simpl. split.
      * intros t. rewrite (Ht (_ ++ _)), (Ht [r]).
        by rewrite otherRoutes_app, otherRoutes_cons, app_assoc.
      * rewrite (Ht [r]). intros x Hx. apply elem_of_app in Hx as [Hx|Hx].
        -- unfold otherRoutes in Hx. apply list_elem_of_In, List.filter_In in Hx as [Hx _].
           apply list_elem_of_In in Hx. set_solver.
        -- apply elem_of_cons. right. by apply Hsub.
    + exists []. split; [|done]. intros t. simpl. by rewrite otherRoutes_none, app_nil_r.
Qed.

(** With non-empty names a second run of the registration loop leaves the
    table as the first run left it. *)
Lemma registerRoutes_twice rs t :
  (∀ r, r ∈ rs → truthyStr (routeName r) = true) →
  (registerRoutes accepts rs (registerRoutes accepts rs t).1).1
  = (registerRoutes accepts rs t).1.
Proof.
  intros Hname. destruct (registerRoutes_split rs Hname) as (reg & Ht & Hsub).
  rewrite (Ht (registerRoutes accepts rs t).1), (Ht t).
  rewrite otherRoutes_app, otherRoutes_idemp.
  by rewrite (otherRoutes_self reg _ Hsub), app_nil_r.
Qed.



End Routes.


(** * View resolution *)

Section ViewResolution.

Context {L : Type} (modules : gmap string L).

Lemma stripLeadingSlash_strips router : strips router (stripLeadingSlash router).
Proof.
  destruct router as [|c rest]; [by right|].
  destruct (Ascii.ascii_dec c "/") as [->|Hne]; [by left|].
  right. split; [|by destruct c as [[] [] [] [] [] [] [] []]].
  intros p [= ? _]. done.
Qed.

Lemma strips_fun router p q : strips router p → strips router q → p = q.
Proof.
  intros [->|[H1 ->]] [H2|[H2 ->]]; [by inversion H2 | by destruct (H2 p) | | done].
  by destruct (H1 q).
Qed.



End ViewResolution.

(** * Navigation guard *)

Section Guard.

Import Router.

Context (accepts : string → bool).

Lemma hydrate_fails srv w :
  hydrationFails accepts srv → (hydrate accepts srv w).2 = false.
Proof.
  unfold hydrate, UserStore.fetchUserInfo, fetchMenus.
  intros [[e He]|[[e He]|[[e He]|(data & Hd & Hr)]]].
  - by rewrite He.
  - rewrite He. by destruct (person srv).
  - rewrite He. by destruct (person srv), (perms srv).
  - rewrite Hd. destruct (person srv); [|done]. destruct (perms srv); [|done].
    destruct (generateRoutesOf _) as [rs|?]; [|done].
    destruct Hr as (r & Hin & Hr). apply admits_false in Hr.
    pose proof (registerRoutes_rejected accepts rs (table w) r Hin Hr) as H.
    by destruct (registerRoutes accepts rs (table w)) as [t ok]; simpl in *; subst.
Qed.

(** C6: when a session that holds a token but no profile navigates to a
    protected route and a step of hydration fails, the guard logs the
    session out (refs cleared, the three [localStorage] keys removed, a push
    to the login route) and answers the navigation with a redirect to the
    login route. *)
Theorem C6_hydration_failure (srv : Server) (to : RouteLocation) (w : World) :
  isPublic to = false →
  UserStore.isLoggedIn (user w) = true →
  UserStore.userInfo (user w) = None →
  hydrationFails accepts srv →
  let r := beforeEach accepts srv to w in
  r.2 = NextPath "/login"
  ∧ (∃ u, user r.1 = UserStore.logout u)
  ∧ UserStore.token (user r.1) = ""
  ∧ UserStore.refreshToken (user r.1) = ""
  ∧ UserStore.userInfo (user r.1) = None
  ∧ UserStore.permissions (user r.1) = []
  ∧ UserStore.localStorage (user r.1) !! UserStore.TOKEN_KEY = None
  ∧ UserStore.localStorage (user r.1) !! UserStore.REFRESH_TOKEN_KEY = None
  ∧ UserStore.localStorage (user r.1) !! UserStore.USER_INFO_KEY = None
  ∧ last (UserStore.pushed (user r.1)) = Some "/login".
Proof.
  intros Hpub Hlog Hinfo Hfail. unfold beforeEach.
  rewrite Hpub, Hlog, Hinfo. simpl.
  pose proof (hydrate_fails srv w Hfail) as Hh.
  destruct (hydrate accepts srv w) as [w' ok]. simpl in Hh. subst ok. simpl.
  split_and!; [done|by eexists|done..| | | |].
  - rewrite lookup_delete_ne, lookup_delete_ne, lookup_delete_eq; done.
  - by rewrite lookup_delete_ne, lookup_delete_eq.
  - by rewrite lookup_delete_eq.
  - by rewrite last_snoc.
Qed.

End Guard.

Lemma C6_hydration_failure_witness :
  let r := Router.beforeEach Router.acceptAll Router.menuDown
             Router.supplyPage Router.freshWorld in
  r.2 = Router.NextPath "/login"
  ∧ (∃ u, Router.user r.1 = UserStore.logout u)
  ∧ UserStore.token (Router.user r.1) = ""
  ∧ UserStore.refreshToken (Router.user r.1) = ""
  ∧ UserStore.userInfo (Router.user r.1) = None
  ∧ UserStore.permissions (Router.user r.1) = []
  ∧ UserStore.localStorage (Router.user r.1) !! UserStore.TOKEN_KEY = None
  ∧ UserStore.localStorage (Router.user r.1) !! UserStore.REFRESH_TOKEN_KEY = None
  ∧ UserStore.localStorage (Router.user r.1) !! UserStore.USER_INFO_KEY = None
  ∧ last (UserStore.pushed (Router.user r.1)) = Some "/login".
Proof.
  apply (C6_hydration_failure Router.acceptAll Router.menuDown
           Router.supplyPage Router.freshWorld).
  - reflexivity.
  - reflexivity.
  - reflexivity.
  - right. right. left. exists "Network Error". reflexivity.
Defined.

(** * More on the visibility pass *)

Section VisibilityPass.

Import MenuChecks Router.

Lemma visibleCopy_item n : item (visibleCopy n) = item n.
Proof. by destruct n as [it [cs|]]. Qed.

Lemma isVisible_copy n : isVisible (visibleCopy n) = isVisible n.
Proof. unfold isVisible. by rewrite visibleCopy_item. Qed.

Lemma orderOf_copy n : orderOf (visibleCopy n) = orderOf n.
Proof. unfold orderOf. by rewrite visibleCopy_item. Qed.

Lemma elem_of_sorted_copies x cs :
  x ∈ sortBy byOrderNum (visibleCopy <$> List.filter isVisible cs) →
  ∃ c, x = visibleCopy c ∧ c ∈ cs ∧ isVisible c = true.
Proof.
  rewrite sortBy_Permutation. intros (c & -> & Hc)%list_elem_of_fmap.
  apply list_elem_of_In, filter_In in Hc as [Hc Hv].
  exists c. split_and!; [done| |done]. by apply list_elem_of_In.
Qed.

Lemma visibleCopy_shown n :
  isVisible n = true → nodeAll shown (visibleCopy n) = true.
Proof.
  induction n as [it|it cs IH] using MenuNode_forall_ind; intros Hv.
  - simpl. by rewrite andb_true_r.
  - rewrite visibleCopy_some. simpl. apply andb_true_iff. split; [done|].
    apply forallb_forall. intros x Hx. apply list_elem_of_In in Hx.
    apply elem_of_sorted_copies in Hx as (c & -> & Hc & Hcv).
    rewrite Forall_forall in IH. by apply IH.
Qed.

(** X1: whatever tree the visibility pass is given, every node of its
    result, at every depth, has its visibility flag set and is not a
    permission marker. *)
Theorem filterVisibleMenus_only_shown (forest : list MenuNode) :
  forestAll shown (filterVisibleMenus forest) = true.
Proof.
  unfold forestAll, filterVisibleMenus. apply forallb_forall. intros x Hx.
  apply list_elem_of_In, elem_of_sorted_copies in Hx as (c & -> & _ & Hv).
  by apply visibleCopy_shown.
Qed.

Lemma sortBy_ascending_id l :
  ascending (orderOf <$> l) = true → sortBy byOrderNum l = l.
Proof.
  induction l as [|x l IH]; intros Hl; [done|]. simpl.
  destruct l as [|y l]; [done|].
  rewrite !fmap_cons, ascending_cons in Hl. apply andb_true_iff in Hl as [Hxy Hl].
  rewrite IH by done. simpl.
  change (byOrderNum x y) with (orderOf x - orderOf y).
  apply Z.leb_le in Hxy. by rewrite (proj2 (Z.leb_le _ _)) by lia.
Qed.

Lemma fmap_fixed {A} (f : A → A) (l : list A) :
  (∀ x, x ∈ l → f x = x) → f <$> l = l.
Proof.
  induction l as [|x l IH]; intros H; [done|].
  rewrite fmap_cons, H, IH by set_solver. done.
Qed.

Lemma filter_all {A} (f : A → bool) (l : list A) :
  (∀ x, x ∈ l → f x = true) → List.filter f l = l.
Proof.
  induction l as [|x l IH]; intros H; [done|]. simpl.
  rewrite H, IH by set_solver. done.
Qed.

Lemma sorted_copies_again cs :
  (∀ c, c ∈ cs → visibleCopy (visibleCopy c) = visibleCopy c) →
  let L := sortBy byOrderNum (visibleCopy <$> List.filter isVisible cs) in
  sortBy byOrderNum (visibleCopy <$> List.filter isVisible L) = L.
Proof.
  intros IH L.
  rewrite filter_all.
  2:{ intros x (c & -> & _ & Hv)%elem_of_sorted_copies. by rewrite isVisible_copy. }
  rewrite fmap_fixed.
  2:{ intros x (c & -> & Hc & _)%elem_of_sorted_copies. by apply IH. }
  apply sortBy_ascending_id, sortBy_ascending.
Qed.

Lemma visibleCopy_idemp n : visibleCopy (visibleCopy n) = visibleCopy n.
Proof.
  induction n as [it|it cs IH] using MenuNode_forall_ind; [done|].
  rewrite !visibleCopy_some. do 2 f_equal.
  apply sorted_copies_again. by apply Forall_forall.
Qed.

(** X2: the visibility pass is idempotent: run on its own result it
    returns that result unchanged. *)
Theorem filterVisibleMenus_idempotent (forest : list MenuNode) :
  filterVisibleMenus (filterVisibleMenus forest) = filterVisibleMenus forest.
Proof.
  unfold filterVisibleMenus. apply sorted_copies_again.
  intros c _. apply visibleCopy_idemp.
Qed.

Lemma insertBy_withOrder k x l :
  withOrder k (insertBy byOrderNum x l) = withOrder k (x :: l).
Proof.
  unfold withOrder. induction l as [|y l IH]; [done|]. simpl.
  change (byOrderNum x y) with (orderOf x - orderOf y).
  destruct (Z.leb_spec (orderOf x - orderOf y) 0) as [Hle|Hgt]; [done|].
  simpl. rewrite IH. simpl.
  destruct (Z.eqb_spec (orderOf x) k), (Z.eqb_spec (orderOf y) k); try done. lia.
Qed.

Lemma sortBy_withOrder k l : withOrder k (sortBy byOrderNum l) = withOrder k l.
Proof.
  induction l as [|x l IH]; [done|]. simpl. rewrite insertBy_withOrder.
  unfold withOrder in *. simpl. by rewrite IH.
Qed.

Lemma withOrder_copies k l :
  withOrder k (visibleCopy <$> l) = visibleCopy <$> withOrder k l.
Proof.
  unfold withOrder. induction l as [|x l IH]; [done|].
  rewrite fmap_cons. simpl. rewrite orderOf_copy.
  destruct (orderOf x =? k); [rewrite fmap_cons|]; by rewrite IH.
Qed.

(** X3: the sort of the visibility pass is stable: among the top-level
    nodes it returns, those with one and the same display order are the
    visible input nodes with that order, in input order. *)
Theorem filterVisibleMenus_stable (k : Z) (forest : list MenuNode) :
  withOrder k (filterVisibleMenus forest)
  = visibleCopy <$> withOrder k (List.filter isVisible forest).
Proof.
  unfold filterVisibleMenus. by rewrite sortBy_withOrder, withOrder_copies.
Qed.

Lemma nodeItems_copy n x : x ∈ nodeItems (visibleCopy n) → x ∈ nodeItems n.
Proof.
  revert x. induction n as [it|it cs IH] using MenuNode_forall_ind; intros x; [done|].
  rewrite visibleCopy_some. simpl. rewrite !elem_of_cons.
  intros [->|Hx]; [by left|]. right.
  apply list_elem_of_In, in_flat_map in Hx as (c' & Hc' & Hx).
  apply list_elem_of_In, elem_of_sorted_copies in Hc' as (c & -> & Hc & _).
  apply list_elem_of_In, in_flat_map. exists c. split; [by apply list_elem_of_In|].
  apply list_elem_of_In. rewrite Forall_forall in IH. apply IH; [done|].
  by apply list_elem_of_In.
Qed.

(** X4: every route synthesized from the filtered tree is among the routes
    synthesized from the unfiltered tree: no sidebar entry lacks a route. *)
Theorem sidebar_routes_are_registered (forest : list MenuNode) :
  generateRoutes (filterVisibleMenus forest) ⊆ generateRoutes forest.
Proof.
  intros r. rewrite !generateRoutes_navigable.
  intros (it & -> & Hit)%list_elem_of_fmap. apply list_elem_of_fmap_2.
  unfold navigableItems in *.
  apply list_elem_of_In, filter_In in Hit as [Hit Hnav].
  apply list_elem_of_In, filter_In. split; [|done].
  unfold preorderItems in *. apply in_flat_map in Hit as (c' & Hc' & Hx).
  apply list_elem_of_In in Hc'. unfold filterVisibleMenus in Hc'.
  apply elem_of_sorted_copies in Hc' as (c & -> & Hc & _).
  apply in_flat_map. exists c. split; [by apply list_elem_of_In|].
  by apply list_elem_of_In, nodeItems_copy, list_elem_of_In.
Qed.

End VisibilityPass.

(** * More on the menu tree builder *)

Section Placement.

Import MenuChecks.

Context (items : list MenuItem).

Lemma attachTarget_spec it p :
  attachTarget (indexItems items) it = Some p
  ↔ parentId it = Some p ∧ p ≠ 0 ∧ p ∈ id <$> items.
Proof.
  unfold attachTarget, truthyNum. destruct (parentId it) as [q|]; [|naive_solver].
  rewrite <- indexItems_dom.
  destruct (Z.eqb_spec q 0); simpl; [naive_solver|].
  case_bool_decide; naive_solver.
Qed.

Lemma attachTarget_None it :
  attachTarget (indexItems items) it = None
  ↔ ∀ p, parentId it = Some p → p = 0 ∨ p ∉ id <$> items.
Proof.
  split.
  - intros Hn p Hp. destruct (decide (p = 0)); [by left|]. right. intros Hin.
    assert (attachTarget (indexItems items) it = Some p) by by apply attachTarget_spec.
    congruence.
  - intros H. destruct (attachTarget (indexItems items) it) as [p|] eqn:Hp; [|done].
    apply attachTarget_spec in Hp as (Hp & ? & ?). destruct (H p Hp); done.
Qed.

Hypothesis Hids : NoDup (id <$> items).

Lemma id_inj it it' : it ∈ items → it' ∈ items → id it = id it' → it = it'.
Proof.
  intros H H' Heq. pose proof (find_by_id items Hids it H) as Hf.
  rewrite Heq, (find_by_id items Hids it' H') in Hf. congruence.
Qed.

(** X5: with distinct identifiers the builder places a record at the root
    exactly when its parent identifier is null, zero or absent from the
    input, and otherwise in the children array of its parent and of no
    other node. *)
Theorem buildMenuTree_placement (it : MenuItem) :
  it ∈ items →
  (id it ∈ roots (buildMenuTree items)
     ↔ ∀ p, parentId it = Some p → p = 0 ∨ p ∉ id <$> items)
  ∧ ∀ p, id it ∈ kidsOf (heap (buildMenuTree items)) p
         ↔ parentId it = Some p ∧ p ≠ 0 ∧ p ∈ id <$> items.
Proof.
  intros Hin. split.
  - rewrite buildMenuTree_roots, (rootIds_parent items Hids),
      (parentOf_item items Hids it Hin), attachTarget_None.
    split; [by intros [_ ?]|]. intros H. split; [by apply list_elem_of_fmap_2 | done].
  - intros p. rewrite kidsOf_build, childIds_elem, <- attachTarget_spec. split.
    + intros (it' & Hin' & Heq & Ht). by rewrite (id_inj it it' Hin Hin').
    + intros Ht. by exists it.
Qed.

(** ** Parent chains *)

Lemma chainLen_fuel f f' x d :
  chainLen items f x = Some d → (d < f')%nat → chainLen items f' x = Some d.
Proof.
  revert f' x d. induction f as [|f IH]; intros f' x d; [done|]. simpl.
  destruct f' as [|f']; [lia|]. simpl.
  destruct (parentOf items x) as [p|]; [|done].
  destruct (chainLen items f p) as [d0|] eqn:Hd; [|done]. simpl.
  intros [= <-] Hlt. by rewrite (IH f' p d0 Hd) by lia.
Qed.

(** The records on a parent chain that ends are distinct records of the
    input. *)
Lemma chain_nodes f x d :
  x ∈ id <$> items → chainLen items f x = Some d →
  ∃ l, length l = S d ∧ NoDup l ∧ l ⊆ id <$> items
       ∧ Forall (λ y, ∃ d', (d' ≤ d)%nat ∧ chainLen items f y = Some d') l.
Proof.
  revert x d. induction f as [|f IH]; intros x d Hx; [done|]. simpl.
  destruct (parentOf items x) as [p|] eqn:Hp.
  - destruct (chainLen items f p) as [d0|] eqn:Hd; [|done]. simpl. intros [= <-].
    destruct (parentOf_up items Hids x p Hx Hp) as [Hpin _].
    destruct (IH p d0 Hpin Hd) as (l & Hlen & Hnd & Hsub & Hall).
    assert (Hxd : chainLen items (S f) x = Some (S d0)) by (simpl; by rewrite Hp, Hd).
    exists (x :: l). split_and!.
    + simpl. by rewrite Hlen.
    + apply NoDup_cons. split; [|done]. intros Hin.
      rewrite Forall_forall in Hall. destruct (Hall x Hin) as (d' & Hle & Hd').
      apply (chainLen_mono items) in Hd'. rewrite Hxd in Hd'.
      injection Hd' as Hd'. lia.
    + set_solver.
    + constructor; [by exists (S d0)|].
      eapply Forall_impl; [exact Hall|]. intros y (d' & Hle & Hd').
      exists d'. split; [lia|]. by apply (chainLen_mono items).
  - intros [= <-]. exists [x]. split_and!; [done| |set_solver|].
    + apply NoDup_singleton.
    + constructor; [|done]. exists O. split; [done|]. simpl. by rewrite Hp.
Qed.

Lemma chainLen_bound f x d :
  x ∈ id <$> items → chainLen items f x = Some d → (d < length items)%nat.
Proof.
  intros Hx Hd. destruct (chain_nodes f x d Hx Hd) as (l & Hlen & Hnd & Hsub & _).
  assert (length l ≤ length (id <$> items))%nat as Hle.
  { apply submseteq_length, NoDup_submseteq; [done|]. intros y Hy. by apply Hsub. }
  rewrite length_fmap in Hle. lia.
Qed.

Lemma chainEnds_root x :
  x ∈ id <$> items → parentOf items x = None → chainEnds items x.
Proof.
  intros Hx Hp. unfold chainEnds. destruct items as [|a l] eqn:Hl.
  { by apply elem_of_nil in Hx. }
  rewrite <- Hl in *. change (length items) with (length items).
  assert (length items = S (length l)) as -> by by rewrite Hl.
  simpl. rewrite Hp. by eexists.
Qed.

Lemma chainEnds_child x y :
  y ∈ id <$> items → parentOf items y = Some x →
  chainEnds items x → chainEnds items y.
Proof.
  intros Hy Hp [d Hd]. unfold chainEnds.
  assert (Hy' : chainLen items (S (length items)) y = Some (S d)).
  { simpl. by rewrite Hp, Hd. }
  pose proof (chainLen_bound _ _ _ Hy Hy') as Hlt.
  rewrite (chainLen_fuel _ (length items) _ _ Hy' Hlt). by eexists.
Qed.

Lemma chainEnds_parent x p :
  parentOf items x = Some p → chainEnds items x →
  chainEnds items p ∧ (depthOf items p < depthOf items x)%nat.
Proof.
  intros Hp [d Hd]. unfold chainEnds, depthOf. rewrite Hd. simpl.
  destruct (length items) as [|n]; [done|]. simpl in Hd. rewrite Hp in Hd.
  destruct (chainLen items n p) as [d'|] eqn:Hd'; [|done]. injection Hd as <-.
  rewrite (chainLen_mono items _ _ _ Hd'). simpl. split; [by eexists | lia].
Qed.

Lemma unfoldRefs_weaken k (h h' : gmap Z MenuObj) refs f :
  h' ⊆ h → unfoldRefs k h' refs = Some f → unfoldRefs k h refs = Some f.
Proof.
  intros Hsub. revert refs f. induction k as [|k IHk]; [done|].
  induction refs as [|r refs IHr]; intros f Hf.
  - by rewrite unfoldRefs_nil in *.
  - apply unfoldRefs_cons in Hf as (o & kids & rest & Ho & Hk & Hrest & ->).
    apply unfoldRefs_cons. exists o, kids, rest.
    split_and!; [by eapply lookup_weaken | by apply IHk | by apply IHr | done].
Qed.

Lemma rootedPart_lookup (h : gmap Z MenuObj) x o :
  rootedPart items h !! x = Some o ↔ h !! x = Some o ∧ chainEnds items x.
Proof. unfold rootedPart. by rewrite map_lookup_filter_Some. Qed.

Lemma rootedPart_dom x :
  is_Some (rootedPart items (heap (buildMenuTree items)) !! x)
  ↔ x ∈ id <$> items ∧ chainEnds items x.
Proof.
  rewrite <- buildMenuTree_dom. unfold is_Some.
  setoid_rewrite rootedPart_lookup. naive_solver.
Qed.

Lemma rootedPart_kids x :
  chainEnds items x →
  kidsOf (rootedPart items (heap (buildMenuTree items))) x = childIds items x.
Proof.
  intros Hx. rewrite <- kidsOf_build. unfold kidsOf.
  destruct (heap (buildMenuTree items) !! x) as [o|] eqn:Ho.
  - by rewrite (proj2 (rootedPart_lookup _ x o)).
  - destruct (rootedPart _ _ !! x) as [o|] eqn:Ho'; [|done].
    apply rootedPart_lookup in Ho' as [? _]. congruence.
Qed.

Lemma rootedPart_kids_elem x y :
  y ∈ kidsOf (rootedPart items (heap (buildMenuTree items))) x →
  chainEnds items x ∧ y ∈ childIds items x.
Proof.
  unfold kidsOf. destruct (rootedPart _ _ !! x) as [o|] eqn:Ho.
  - intros Hy. pose proof Ho as Ho'. apply rootedPart_lookup in Ho' as [_ Hx].
    split; [done|]. rewrite <- (rootedPart_kids x Hx). unfold kidsOf. by rewrite Ho.
  - by intros ?%elem_of_nil.
Qed.

(** X6: with distinct identifiers the walk from the roots always ends, parent
    cycles or not; it visits no record twice, and it visits exactly the
    records whose parent chain ends at a root. *)
Theorem buildMenuTree_rooted_records :
  ∃ forest,
    treeOf (buildMenuTree items) = Some forest
    ∧ NoDup (preorderIds forest)
    ∧ ∀ x, x ∈ preorderIds forest ↔ x ∈ id <$> items ∧ chainEnds items x.
Proof.
  set (g := buildMenuTree items). set (h' := rootedPart items (heap g)).
  assert (Hkey : ∀ r o, h' !! r = Some o → id (objItem o) = r).
  { intros r o [Ho _]%rootedPart_lookup. by eapply build_key. }
  assert (Hk : ∀ x y, y ∈ kidsOf h' x → parentOf items y = Some x ∧ is_Some (h' !! y)).
  { intros x y [Hx Hy]%rootedPart_kids_elem.
    pose proof (childIds_parent items Hids x y Hy) as Hp. split; [done|].
    assert (y ∈ id <$> items) as Hyin.
    { apply childIds_elem in Hy as (it & ? & <- & _). by apply list_elem_of_fmap_2. }
    apply rootedPart_dom. split; [done|]. by eapply chainEnds_child. }
  assert (Hup : ∀ x p, is_Some (h' !! x) → parentOf items x = Some p →
                is_Some (h' !! p) ∧ x ∈ kidsOf h' p).
  { intros x p [Hx Hc]%rootedPart_dom Hp.
    destruct (parentOf_up items Hids x p Hx Hp) as [Hpin Hxp].
    destruct (chainEnds_parent x p Hp Hc) as [Hpc _].
    split; [by apply rootedPart_dom|]. unfold h', g. by rewrite rootedPart_kids. }
  assert (Hnd : ∀ x, NoDup (kidsOf h' x)).
  { intros x. unfold kidsOf. destruct (h' !! x) as [o|] eqn:Ho; [|constructor].
    pose proof Ho as [_ Hx]%rootedPart_lookup.
    pose proof (rootedPart_kids x Hx) as Hkx. unfold kidsOf in Hkx.
    fold g in Hkx. fold h' in Hkx. rewrite Ho in Hkx. rewrite Hkx.
    by apply childIds_NoDup. }
  assert (Hr : ∀ x p, is_Some (h' !! x) → parentOf items x = Some p →
               (depthOf items p < depthOf items x)%nat).
  { intros x p [_ Hc]%rootedPart_dom Hp. by apply chainEnds_parent. }
  assert (HM : ∀ x, is_Some (h' !! x) → (depthOf items x < length items)%nat).
  { intros x [_ [d Hd]]%rootedPart_dom. unfold depthOf. rewrite Hd. simpl.
    by eapply chainLen_lt. }
  assert (Hroot : ∀ r, r ∈ roots g ↔ is_Some (h' !! r) ∧ parentOf items r = None).
  { intros r. unfold h', g.
    rewrite buildMenuTree_roots, (rootIds_parent items Hids), rootedPart_dom.
    split; [|naive_solver].
    intros [Hin Hp]. split_and!; [done| |done]. by apply chainEnds_root. }
  destruct (unfoldRefs_total _ _ _ _ Hkey Hk Hup Hnd Hr HM
              (S (size (heap g))) (roots g)) as [forest Hf]; [lia| |].
  { intros r [Hs _]%Hroot. split; [done|]. apply HM in Hs.
    unfold g. rewrite (build_size items Hids). lia. }
  assert (Hroots : NoDup (roots g)).
  { unfold g. rewrite buildMenuTree_roots. by apply rootIds_NoDup. }
  pose proof (unfoldRefs_forest _ _ _ _ Hkey Hk Hup Hnd Hr HM
                (S (size (heap g))) (roots g)
                (filter (chainEnds items) (id <$> items)) forest Hroots
                (NoDup_filter _ _ Hids) Hroot) as Hperm.
  assert (Hperm' : preorderIds forest ≡ₚ filter (chainEnds items) (id <$> items)).
  { apply Hperm; [|done]. intros x. unfold h', g.
    by rewrite list_elem_of_filter, rootedPart_dom, (comm and). }
  exists forest. split_and!.
  - unfold treeOf. eapply unfoldRefs_weaken; [|exact Hf]. apply map_filter_subseteq.
  - rewrite Hperm'. by apply NoDup_filter.
  - intros x. rewrite Hperm', list_elem_of_filter. naive_solver.
Qed.

End Placement.

Example partly_cyclic_flattened :
  preorderIds <$> treeOf (buildMenuTree MenuChecks.partlyCyclicMenus) = Some [1; 2].
Proof. by vm_compute. Qed.

Lemma buildMenuTree_placement_witness :
  let it := mkMenuItem 2 (Some 1) "Supply" (Some "/rk/supply") None 1 None 1 true false in
  (id it ∈ roots (buildMenuTree scenarioMenus)
     ↔ ∀ p, parentId it = Some p → p = 0 ∨ p ∉ id <$> scenarioMenus)
  ∧ ∀ p, id it ∈ kidsOf (heap (buildMenuTree scenarioMenus)) p
         ↔ parentId it = Some p ∧ p ≠ 0 ∧ p ∈ id <$> scenarioMenus.
Proof.
  apply (buildMenuTree_placement scenarioMenus).
  - apply (bool_decide_unpack _). vm_compute. exact I.
  - apply list_elem_of_In. simpl. right. left. reflexivity.
Defined.

Lemma buildMenuTree_rooted_records_witness :
  ∃ forest,
    treeOf (buildMenuTree MenuChecks.partlyCyclicMenus) = Some forest
    ∧ NoDup (preorderIds forest)
    ∧ ∀ x, x ∈ preorderIds forest
           ↔ x ∈ id <$> MenuChecks.partlyCyclicMenus
             ∧ MenuChecks.chainEnds MenuChecks.partlyCyclicMenus x.
Proof.
  apply (buildMenuTree_rooted_records MenuChecks.partlyCyclicMenus).
  apply (bool_decide_unpack _). vm_compute. exact I.
Defined.

(** * More on the session store *)

Section SessionMore.

Import UserStore Persisted.

Lemma includes_spec l p : includes l p = true ↔ p ∈ l.
Proof.
  unfold includes. rewrite existsb_exists. split.
  - intros (x & Hx & ->%String.eqb_eq). by apply list_elem_of_In.
  - intros H. exists p. split; [by apply list_elem_of_In | apply String.eqb_refl].
Qed.

(** X7: outside the administrator bypass the three queries are membership
    tests on the granted list: one code, some code of the list, every code
    of the list. *)
Theorem permission_queries_membership (s : State) (code : string) (codes : list string) :
  isAdmin s = false →
  (hasPermission s code = true ↔ code ∈ permissions s)
  ∧ (hasAnyPermission s codes = true ↔ ∃ c, c ∈ codes ∧ c ∈ permissions s)
  ∧ (hasAllPermissions s codes = true ↔ ∀ c, c ∈ codes → c ∈ permissions s).
Proof.
  intros H. unfold hasPermission, hasAnyPermission, hasAllPermissions. rewrite H.
  split_and!.
  - apply includes_spec.
  - rewrite existsb_exists. setoid_rewrite includes_spec.
    setoid_rewrite <- list_elem_of_In. done.
  - rewrite forallb_forall. setoid_rewrite includes_spec.
    setoid_rewrite <- list_elem_of_In. done.
Qed.

Lemma permission_queries_membership_witness :
  (hasPermission clerkSession "rk:supply:list" = true
     ↔ "rk:supply:list" ∈ permissions clerkSession)
  ∧ (hasAnyPermission clerkSession ["rk:supply:add"; "rk:supply:list"] = true
     ↔ ∃ c, c ∈ ["rk:supply:add"; "rk:supply:list"] ∧ c ∈ permissions clerkSession)
  ∧ (hasAllPermissions clerkSession ["rk:supply:add"; "rk:supply:list"] = true
     ↔ ∀ c, c ∈ ["rk:supply:add"; "rk:supply:list"] → c ∈ permissions clerkSession).
Proof.
  apply (permission_queries_membership clerkSession "rk:supply:list"
           ["rk:supply:add"; "rk:supply:list"]).
  reflexivity.
Defined.

(** X8: in every session the list queries are built from the single query:
    on a one-element list both agree with it, and on a concatenation "all"
    is the conjunction and "any" the disjunction of the parts. *)
Theorem permission_queries_compose (s : State) (code : string) (l1 l2 : list string) :
  hasAllPermissions s [code] = hasPermission s code
  ∧ hasAnyPermission s [code] = hasPermission s code
  ∧ hasAllPermissions s (l1 ++ l2) = hasAllPermissions s l1 && hasAllPermissions s l2
  ∧ hasAnyPermission s (l1 ++ l2) = hasAnyPermission s l1 || hasAnyPermission s l2.
Proof.
  unfold hasAllPermissions, hasAnyPermission, hasPermission.
  destruct (isAdmin s); [done|]. simpl.
  by rewrite andb_true_r, orb_false_r, forallb_app, existsb_app.
Qed.

(** X9: logout removes the three session entries from [localStorage] and
    no other; afterwards the session is not logged in and grants nothing;
    a second logout changes nothing but one more push to the login route. *)
Theorem logout_effect (s : State) (key code : string) (codes : list string) :
  isLoggedIn (logout s) = false
  ∧ hasPermission (logout s) code = false
  ∧ hasAnyPermission (logout s) codes = false
  ∧ localStorage (logout s) !! key
    = (if bool_decide (key ∈ sessionKeys) then None else localStorage s !! key)
  ∧ logout (logout s)
    = mkState (token (logout s)) (refreshToken (logout s)) (userInfo (logout s))
              (permissions (logout s)) (localStorage (logout s))
              (pushed (logout s) ++ ["/login"]).
Proof.
  split_and!; [done|done| | |].
  - unfold hasAnyPermission. simpl. by induction codes.
  - unfold logout, sessionKeys. simpl. case_bool_decide as Hk.
    + apply lookup_delete_None. rewrite !lookup_delete_None. set_solver.
    + rewrite !lookup_delete_ne; [done|set_solver..].
  - unfold logout. simpl. f_equal.
    by rewrite !(delete_id _ USER_INFO_KEY), !(delete_id _ REFRESH_TOKEN_KEY),
      !(delete_id _ TOKEN_KEY) by (rewrite ?lookup_delete_ne by done; apply lookup_delete_eq).
Qed.

Lemma fetchUserInfo_token_entry person perms (s : State) :
  localStorage (fetchUserInfo person perms s).1 !! TOKEN_KEY
  = localStorage s !! TOKEN_KEY.
Proof.
  unfold fetchUserInfo. destruct person, perms; simpl; try done.
  by rewrite lookup_insert_ne.
Qed.

Lemma saveTokens_token_entry data ls :
  saveTokens data ls !! TOKEN_KEY = Some (StoredText (lrToken data)).
Proof.
  unfold saveTokens. destruct (lrRefreshToken data) as [r|]; [destruct (truthyStr r)|];
    rewrite ?(lookup_insert_ne _ REFRESH_TOKEN_KEY) by done; apply lookup_insert_eq.
Qed.

(** X10: the token entry of [localStorage] follows the token in memory
    through every operation of the store: if they agree before login,
    profile fetch, refresh or logout, whatever the server answers, they
    agree after it. *)
Theorem token_entry_synced (op : Op) (s : State) :
  tokenSynced s → tokenSynced (run op s).
Proof.
  intros H. unfold tokenSynced.
  destruct op as [reply person perms|person perms|reply|]; simpl.
  - destruct reply as [data|e]; [|done]. rewrite login_token. unfold login.
    pose proof (fetchUserInfo_token_entry person perms
      (mkState (lrToken data) (orElse (lrRefreshToken data) "") (userInfo s)
         (permissions s) (saveTokens data (localStorage s)) (pushed s))) as He.
    destruct (fetchUserInfo _ _ _) as [s2 [?|?]]; simpl in *;
      by rewrite He, saveTokens_token_entry.
  - by rewrite fetchUserInfo_token, fetchUserInfo_token_entry.
  - unfold refreshUserToken. destruct (truthyStr (refreshToken s)); [|done].
    destruct reply as [data|e]; [|done]. simpl. by rewrite saveTokens_token_entry.
  - by rewrite lookup_delete_ne, lookup_delete_ne, lookup_delete_eq.
Qed.

Lemma token_entry_synced_witness :
  tokenSynced (run (OpRefresh (Fulfilled (mkLoginResponse "t2" None))) clerkSession).
Proof.
  apply (token_entry_synced (OpRefresh (Fulfilled (mkLoginResponse "t2" None)))
           clerkSession).
  reflexivity.
Defined.



(** X12: after a login whose three requests succeed, the permission query
    answers from the list the permission request delivered (nothing, if it
    delivered no list), unless the delivered username is the administrator
    name, for which it answers [true]. *)
Theorem login_then_hasPermission data person permsData (s : State) (code : string) :
  let s' := (login (Fulfilled data) (Fulfilled person) (Fulfilled permsData) s).1 in
  hasPermission s' code
  = if String.eqb (pdUsername person) "admin" then true
    else bool_decide (code ∈ default [] (pdPerms permsData)).
Proof.
  simpl. unfold hasPermission, isAdmin. simpl.
  destruct (String.eqb (pdUsername person) "admin"); [done|].
  destruct (decide (code ∈ default [] (pdPerms permsData))) as [Hin|Hin].
  - rewrite bool_decide_eq_true_2 by done. by apply includes_spec.
  - rewrite bool_decide_eq_false_2 by done. apply not_true_is_false.
    by rewrite includes_spec.
Qed.

End SessionMore.

(** * Permission directive *)

Section DirectiveFacts.

Import UserStore Directive.

(** X13: for an administrator the directive removes an element only when
    it is bound to a truthy value that is neither a string nor an array;
    every element bound to a code or a list of codes, empty or not, stays. *)
Theorem directive_admin (s : State) (value : BindingValue) (all : bool) :
  isAdmin s = true →
  (checkPermission s value all = true ↔ value = BindOther true).
Proof.
  intros H. unfold checkPermission, hasPermission, hasAllPermissions,
    hasAnyPermission. rewrite H.
  destruct value as [c|cs|[]]; simpl; try destruct (truthyStr c);
    try destruct all; simpl; split; (done || intros [=]).
Qed.

Lemma directive_admin_witness :
  checkPermission adminSession (BindArray []) false = true ↔ BindArray [] = BindOther true.
Proof. apply (directive_admin adminSession (BindArray []) false). reflexivity. Defined.

Lemma negb_forallb {A} (f : A → bool) l :
  negb (forallb f l) = true ↔ ∃ x, x ∈ l ∧ f x = false.
Proof.
  induction l as [|a l IH]; simpl; [split; [done|intros (?&?%elem_of_nil&_); done]|].
  rewrite negb_andb, orb_true_iff, IH, negb_true_iff. set_solver.
Qed.

Lemma negb_existsb {A} (f : A → bool) l :
  negb (existsb f l) = true ↔ ∀ x, x ∈ l → f x = false.
Proof.
  induction l as [|a l IH]; simpl; [split; [by intros _ ? ?%elem_of_nil|done]|].
  rewrite negb_orb, andb_true_iff, IH, negb_true_iff. set_solver.
Qed.

Lemma includes_false l p : includes l p = false ↔ p ∉ l.
Proof. rewrite <- includes_spec. by destruct (includes l p). Qed.

(** X14: outside the administrator bypass the directive removes an element
    bound to a code when the code is non-empty and not granted; bound to a
    list with [.all], when some code of the list is not granted; bound to a
    list without [.all], when no code of the list is granted, which
    includes the empty list. *)
Theorem directive_removal (s : State) (code : string) (codes : list string) (all : bool) :
  isAdmin s = false →
  (checkPermission s (BindString code) all = true
     ↔ code ≠ "" ∧ code ∉ permissions s)
  ∧ (checkPermission s (BindArray codes) true = true
     ↔ ∃ c, c ∈ codes ∧ c ∉ permissions s)
  ∧ (checkPermission s (BindArray codes) false = true
     ↔ ∀ c, c ∈ codes → c ∉ permissions s).
Proof.
  intros H. unfold checkPermission, hasPermission, hasAllPermissions,
    hasAnyPermission. rewrite H. simpl. split_and!.
  - unfold truthyStr. destruct (String.eqb_spec code ""); simpl; [naive_solver|].
    rewrite negb_true_iff, includes_false. naive_solver.
  - rewrite negb_forallb. by setoid_rewrite includes_false.
  - rewrite negb_existsb. by setoid_rewrite includes_false.
Qed.

Lemma directive_removal_witness :
  (checkPermission clerkSession (BindString "rk:supply:add") false = true
     ↔ "rk:supply:add" ≠ "" ∧ "rk:supply:add" ∉ permissions clerkSession)
  ∧ (checkPermission clerkSession (BindArray []) true = true
     ↔ ∃ c, c ∈ [] ∧ c ∉ permissions clerkSession)
  ∧ (checkPermission clerkSession (BindArray []) false = true
     ↔ ∀ c, c ∈ [] → c ∉ permissions clerkSession).
Proof.
  apply (directive_removal clerkSession "rk:supply:add" [] false). reflexivity.
Defined.

End DirectiveFacts.

(** * More on the navigation guard *)

Section GuardMore.

Import Router.

Context (accepts : string → bool).

(** X15: the guard lets a navigation to a protected route proceed only for
    a session that holds a token and a profile and, where the route names a
    permission, is granted it; and it then leaves both stores and the route
    table as they were. *)
Theorem guard_proceed_safe (srv : Server) (to : RouteLocation) (w : World) :
  isPublic to = false →
  (beforeEach accepts srv to w).2 = NextProceed →
  UserStore.isLoggedIn (user w) = true
  ∧ (∃ u, UserStore.userInfo (user w) = Some u)
  ∧ (∀ p, metaPerms (meta to) = Some p → p ≠ "" →
          UserStore.hasPermission (user w) p = true)
  ∧ (beforeEach accepts srv to w).1 = w.
Proof.
  intros Hpub. unfold beforeEach. rewrite Hpub.
  destruct (UserStore.isLoggedIn (user w)) eqn:Hlog; simpl; [|done].
  destruct (UserStore.userInfo (user w)) as [u|] eqn:Hu.
  - destruct (metaPerms (meta to)) as [p|] eqn:Hp.
    + unfold truthyStr. destruct (String.eqb_spec p ""); simpl.
      * intros _. split_and!; [done|by eexists| |done]. by intros ? [= <-].
      * destruct (UserStore.hasPermission (user w) p) eqn:Hhas; simpl; [|done].
        intros _. split_and!; [done|by eexists| |done]. by intros ? [= <-].
    + intros _. split_and!; [done|by eexists|done|done].
  - by destruct (hydrate accepts srv w) as [w' []].
Qed.

(** X16: the guard hydrates only a session that holds a token and no
    profile on the way to a protected route; in every other case it leaves
    both stores and the route table untouched and its answer does not depend
    on the server or the router. *)
Theorem guard_no_hydration (accepts' : string → bool) (srv srv' : Server)
    (to : RouteLocation) (w : World) :
  isPublic to = true
  ∨ UserStore.isLoggedIn (user w) = false
  ∨ UserStore.userInfo (user w) ≠ None →
  (beforeEach accepts srv to w).1 = w
  ∧ beforeEach accepts srv to w = beforeEach accepts' srv' to w.
Proof.
  unfold beforeEach. intros [H|[H|H]].
  - rewrite H. by destruct (_ && _).
  - rewrite H. by destruct (isPublic to); [destruct (_ && _)|].
  - destruct (isPublic to); [by destruct (_ && _)|].
    destruct (UserStore.isLoggedIn (user w)); simpl; [|done].
    destruct (UserStore.userInfo (user w)) as [u|]; [|done].
    destruct (metaPerms (meta to)) as [p|]; [|done]. by destruct (_ && _).
Qed.

(** X17: when the three requests succeed, the menu graph can be traversed
    and the router takes every synthesized route (its path parses and its
    name is not the layout route's), the guard answers with a re-dispatch of
    the same navigation, having stored the profile, the permission list, the
    menu graph and the registered routes; the re-dispatched navigation is
    then decided without hydrating again. *)
Theorem guard_hydration_success (srv srv' : Server) (to : RouteLocation) (w : World)
    pd qd data forest :
  isPublic to = false →
  UserStore.isLoggedIn (user w) = true →
  UserStore.userInfo (user w) = None →
  person srv = Fulfilled pd →
  perms srv = Fulfilled qd →
  menuList srv = Fulfilled data →
  treeOf (buildMenuTree (default [] data)) = Some forest →
  (∀ r, r ∈ generateRoutes forest →
        accepts (routePath r) = true ∧ routeName r ≠ "Layout") →
  let r := beforeEach accepts srv to w in
  r.2 = NextRetry to
  ∧ UserStore.token (user r.1) = UserStore.token (user w)
  ∧ UserStore.userInfo (user r.1) = Some (UserStore.userInfoOf pd)
  ∧ UserStore.permissions (user r.1) = default [] (UserStore.pdPerms qd)
  ∧ menus r.1 = buildMenuTree (default [] data)
  ∧ table r.1 = synthesize accepts forest (table w)
  ∧ (beforeEach accepts srv' to r.1).1 = r.1
  ∧ ((beforeEach accepts srv' to r.1).2 = NextProceed
     ∨ (beforeEach accepts srv' to r.1).2 = NextPath "/403").
Proof.
  intros Hpub Hlog Hinfo Hp Hq Hm Htree Hacc r.
  assert (E : r = (mkWorld (UserStore.fetchUserInfo (Fulfilled pd) (Fulfilled qd) (user w)).1
                     (buildMenuTree (default [] data))
                     (synthesize accepts forest (table w)),
                   NextRetry to)).
  { unfold r, beforeEach. rewrite Hpub, Hlog, Hinfo.
    unfold hydrate, fetchMenus, generateRoutesOf. rewrite Hp, Hq, Hm. simpl.
    rewrite Htree.
    assert (Hadm : ∀ r, r ∈ generateRoutes forest → admits accepts "Layout" r = true)
      by (intros; apply admits_true; auto).
    pose proof (registerRoutes_accepted accepts (generateRoutes forest) (table w) Hadm)
      as Hok.
    unfold synthesize.
    destruct (registerRoutes accepts (generateRoutes forest) (table w)) as [t ok].
    simpl in Hok. by subst ok. }
  rewrite E. simpl. split_and!; [done..| |].
  - refine (proj1 (guard_no_hydration accepts srv' srv' to _ _)). by right; right.
  - unfold beforeEach. rewrite Hpub. simpl.
    unfold UserStore.isLoggedIn in *. simpl. rewrite Hlog. simpl.
    destruct (metaPerms (meta to)) as [p|]; [|by left].
    destruct (_ && _); [by right | by left].
Qed.

(** X18: for a session that has just been logged out the guard redirects
    every protected navigation to the login route, with the target kept as
    the redirect parameter, and lets every public navigation pass, the login
    route included; nothing is fetched or changed. *)
Theorem guard_after_logout (srv : Server) (to : RouteLocation)
    (u : UserStore.State) (g : MenuGraph) (t : list RouteRecord) :
  beforeEach accepts srv to (mkWorld (UserStore.logout u) g t)
  = (mkWorld (UserStore.logout u) g t,
     if isPublic to then NextProceed else NextLoginRedirect (fullPath to)).
Proof.
  unfold beforeEach. simpl. destruct (isPublic to); [|done].
  by rewrite andb_false_r.
Qed.

End GuardMore.

Lemma guard_proceed_safe_witness :
  UserStore.isLoggedIn (Router.user (Router.mkWorld UserStore.clerkSession (mkMenuGraph ∅ []) [])) = true
  ∧ (∃ u, UserStore.userInfo
            (Router.user (Router.mkWorld UserStore.clerkSession (mkMenuGraph ∅ []) [])) = Some u)
  ∧ (∀ p, metaPerms (Router.meta Router.supplyPage) = Some p → p ≠ "" →
          UserStore.hasPermission
            (Router.user (Router.mkWorld UserStore.clerkSession (mkMenuGraph ∅ []) [])) p = true)
  ∧ (Router.beforeEach Router.acceptAll Router.menuDown Router.supplyPage
       (Router.mkWorld UserStore.clerkSession (mkMenuGraph ∅ []) [])).1
    = Router.mkWorld UserStore.clerkSession (mkMenuGraph ∅ []) [].
Proof.
  apply (guard_proceed_safe Router.acceptAll Router.menuDown Router.supplyPage
           (Router.mkWorld UserStore.clerkSession (mkMenuGraph ∅ []) []));
    reflexivity.
Defined.

Lemma guard_no_hydration_witness :
  (Router.beforeEach Router.acceptAll Router.menuDown Router.supplyPage
     (Router.mkWorld UserStore.emptyState (mkMenuGraph ∅ []) [])).1
  = Router.mkWorld UserStore.emptyState (mkMenuGraph ∅ []) []
  ∧ Router.beforeEach Router.acceptAll Router.menuDown Router.supplyPage
      (Router.mkWorld UserStore.emptyState (mkMenuGraph ∅ []) [])
    = Router.beforeEach (λ _, false) Router.menuDown Router.supplyPage
        (Router.mkWorld UserStore.emptyState (mkMenuGraph ∅ []) []).
Proof.
  apply (guard_no_hydration Router.acceptAll (λ _, false) Router.menuDown Router.menuDown Router.supplyPage
           (Router.mkWorld UserStore.emptyState (mkMenuGraph ∅ []) [])).
  right. left. reflexivity.
Defined.


Lemma guard_hydration_success_witness :
  let w := Router.freshWorld in
  let srv := Router.mkServer (Fulfilled UserStore.clerkPerson)
               (Fulfilled (UserStore.mkPermsData (Some ["rk:supply:list"])))
               (Fulfilled (Some scenarioMenus)) in
  let r := Router.beforeEach Router.acceptAll srv Router.supplyPage w in
  r.2 = Router.NextRetry Router.supplyPage
  ∧ UserStore.token (Router.user r.1) = UserStore.token (Router.user w)
  ∧ UserStore.userInfo (Router.user r.1)
    = Some (UserStore.userInfoOf UserStore.clerkPerson)
  ∧ UserStore.permissions (Router.user r.1) = ["rk:supply:list"]
  ∧ Router.menus r.1 = buildMenuTree scenarioMenus
  ∧ Router.table r.1
    = Router.synthesize Router.acceptAll Router.scenarioForest (Router.table w)
  ∧ (Router.beforeEach Router.acceptAll Router.menuDown Router.supplyPage r.1).1 = r.1
  ∧ ((Router.beforeEach Router.acceptAll Router.menuDown Router.supplyPage r.1).2
       = Router.NextProceed
     ∨ (Router.beforeEach Router.acceptAll Router.menuDown Router.supplyPage r.1).2
       = Router.NextPath "/403").
Proof.
  apply (guard_hydration_success Router.acceptAll
           (Router.mkServer (Fulfilled UserStore.clerkPerson)
              (Fulfilled (UserStore.mkPermsData (Some ["rk:supply:list"])))
              (Fulfilled (Some scenarioMenus)))
           Router.menuDown Router.supplyPage Router.freshWorld
           UserStore.clerkPerson (UserStore.mkPermsData (Some ["rk:supply:list"]))
           (Some scenarioMenus) Router.scenarioForest);
    try reflexivity.
  intros r Hr. vm_compute in Hr. apply list_elem_of_singleton in Hr. subst r.
  split; [reflexivity | discriminate].
Defined.

(** * The HTTP clients around the envelope *)

Section Clients.

Import Request RequestFlow.

Lemma truthyStr_true t : truthyStr t = true ↔ t ≠ "".
Proof. unfold truthyStr. destruct (String.eqb_spec t ""); naive_solver. Qed.

(** X19: on a request that carries no Authorization header of its own,
    each of the three clients adds the header exactly when it holds a
    non-empty token, with the value "Bearer " followed by that token; no
    client touches any header besides Authorization and x-request-id. *)
Theorem bearer_header {U} (s : UserStore.State) (b : Qwn.Browser) (a : Codex.Auth U)
    (rid : string) (headers : gmap string string) (key : string) :
  headers !! "Authorization" = None →
  requestOnRequest s headers !! "Authorization"
    = (if truthyStr (UserStore.token s) then Some (bearer (UserStore.token s)) else None)
  ∧ Qwn.apiClientOnRequest b rid headers !! "Authorization"
    = (match Qwn.storage b !! "access_token" with
       | Some t => if truthyStr t then Some (bearer t) else None
       | None => None
       end)
  ∧ Codex.httpOnRequest a rid headers !! "Authorization"
    = (if truthyStr (Codex.token a) then Some (bearer (Codex.token a)) else None)
  ∧ (key ≠ "Authorization" → key ≠ "x-request-id" →
     requestOnRequest s headers !! key = headers !! key
     ∧ Qwn.apiClientOnRequest b rid headers !! key = headers !! key
     ∧ Codex.httpOnRequest a rid headers !! key = headers !! key).
Proof.
  intros Hnone. unfold requestOnRequest, Qwn.apiClientOnRequest, Codex.httpOnRequest.
  split_and!.
  - destruct (truthyStr _); [apply lookup_insert_eq | done].
  - rewrite lookup_insert_ne by done.
    destruct (Qwn.storage b !! "access_token") as [t|]; [|done].
    destruct (truthyStr t); [apply lookup_insert_eq | done].
  - destruct (truthyStr (Codex.token a)); destruct (truthyOptStr _);
      rewrite ?(lookup_insert_ne _ "x-request-id") by done;
      rewrite ?lookup_insert_eq; done.
  - intros H1 H2. split_and!.
    + destruct (truthyStr _); [by rewrite lookup_insert_ne | done].
    + rewrite lookup_insert_ne by done.
      destruct (Qwn.storage b !! "access_token") as [t|]; [|done].
      destruct (truthyStr t); [by rewrite lookup_insert_ne | done].
    + destruct (truthyStr (Codex.token a)); destruct (truthyOptStr _);
        rewrite ?(lookup_insert_ne _ "x-request-id") by done;
        rewrite ?(lookup_insert_ne _ "Authorization") by done; done.
Qed.

Lemma bearer_header_witness :
  requestOnRequest UserStore.clerkSession ∅ !! "Authorization" = Some (bearer "t1")
  ∧ Qwn.apiClientOnRequest Qwn.signedIn "req_1" ∅ !! "Authorization" = Some (bearer "a1")
  ∧ Codex.httpOnRequest (Codex.logout (Codex.initial (Codex.mkAuthStorage (U:=unit)
                           (Some "c1") None None None))) "req_1" ∅ !! "Authorization"
    = None
  ∧ ("Accept" ≠ "Authorization" → "Accept" ≠ "x-request-id" →
     requestOnRequest UserStore.clerkSession ∅ !! "Accept" = (∅ : gmap string string) !! "Accept"
     ∧ Qwn.apiClientOnRequest Qwn.signedIn "req_1" ∅ !! "Accept"
       = (∅ : gmap string string) !! "Accept"
     ∧ Codex.httpOnRequest (Codex.logout (Codex.initial (Codex.mkAuthStorage (U:=unit)
                              (Some "c1") None None None))) "req_1" ∅ !! "Accept"
       = (∅ : gmap string string) !! "Accept").
Proof.
  apply (bearer_header UserStore.clerkSession Qwn.signedIn
           (Codex.logout (Codex.initial (Codex.mkAuthStorage (U:=unit)
              (Some "c1") None None None))) "req_1" ∅ "Accept").
  reflexivity.
Defined.

(** X20: the request identifier: the qwn client always sends the
    identifier it generates, replacing one the caller supplied; the codex
    client keeps a non-empty identifier of the caller and generates one
    only when there is none. *)
Theorem request_id_header {U} (b : Qwn.Browser) (a : Codex.Auth U)
    (rid : string) (headers : gmap string string) :
  Qwn.apiClientOnRequest b rid headers !! "x-request-id" = Some rid
  ∧ Codex.httpOnRequest a rid headers !! "x-request-id"
    = (match headers !! "x-request-id" with
       | Some own => if truthyStr own then Some own else Some rid
       | None => Some rid
       end).
Proof.
  unfold Qwn.apiClientOnRequest, Codex.httpOnRequest. split; [apply lookup_insert_eq|].
  assert (∀ h : gmap string string,
            h !! "x-request-id" = headers !! "x-request-id" →
            (if truthyOptStr (h !! "x-request-id") then h
             else <["x-request-id" := rid]> h) !! "x-request-id"
            = match headers !! "x-request-id" with
              | Some own => if truthyStr own then Some own else Some rid
              | None => Some rid
              end) as H.
  { intros h Hh. rewrite Hh. destruct (headers !! "x-request-id") as [own|] eqn:Ho; simpl.
    - destruct (truthyStr own); [by rewrite Hh | apply lookup_insert_eq].
    - apply lookup_insert_eq. }
  destruct (truthyStr (Codex.token a)); apply H; [by rewrite lookup_insert_ne | done].
Qed.

Lemma step_flag pg ev : flagMatchesDialog pg → flagMatchesDialog (step pg ev).
Proof.
  unfold flagMatchesDialog. intros H.
  destruct ev as [error| |]; simpl.
  - unfold requestOnError. destruct (response error) as [[status data]|]; [|done].
    destruct (isAuthStatus status); [|done].
    destruct (authErrorShowing pg) eqn:Hs; simpl; [by rewrite Hs|]. by rewrite H.
  - destruct (openDialogs pg) as [|n] eqn:Hn; simpl; [by rewrite Hn|].
    rewrite Hn. simpl. destruct (authErrorShowing pg); [by injection H | done].
  - destruct (openDialogs pg) as [|n] eqn:Hn; simpl; [by rewrite Hn|].
    rewrite Hn. simpl. destruct (authErrorShowing pg); [by injection H | done].
Qed.

Lemma runEvents_flag pg events :
  flagMatchesDialog pg → flagMatchesDialog (runEvents pg events).
Proof.
  unfold runEvents. revert pg. induction events as [|ev events IH]; intros pg H; [done|].
  simpl. by apply IH, step_flag.
Qed.

(** X21: whatever sequence of failed responses and dialog answers the page
    goes through, starting idle, at most one "session expired" dialog is on
    screen at any time, and the window flag is set exactly while it is. *)
Theorem one_auth_dialog (s : UserStore.State) (events : list PageEvent) :
  let pg := runEvents (idlePage s) events in
  (openDialogs pg ≤ 1)%nat ∧ flagMatchesDialog pg.
Proof.
  intros pg. assert (H : flagMatchesDialog pg) by by apply runEvents_flag.
  split; [|done]. unfold flagMatchesDialog in H. rewrite H.
  destruct (authErrorShowing pg); lia.
Qed.

Lemma auth_burst pg errors :
  Forall (λ e, isAuthError e = true) errors →
  authErrorShowing pg = true →
  runEvents pg (ResponseFailed <$> errors) = pg.
Proof.
  unfold runEvents. induction 1 as [|e errors He _ IH]; intros Hs; [done|].
  rewrite fmap_cons. simpl. unfold requestOnError, isAuthError in *.
  destruct (response e) as [[status data]|]; [|done]. rewrite He, Hs. simpl.
  by apply IH.
Qed.

(** X22: a burst of responses with status 401 or 403 that reaches an idle
    page opens exactly one dialog and shows no toast, and the session stays
    as it was until the user answers; confirming logs the session out and
    pushes the login route, dismissing leaves the session untouched; either
    answer clears the flag. *)
Theorem auth_burst_one_dialog (s : UserStore.State) (first : HttpError)
    (others : list HttpError) :
  isAuthError first = true →
  Forall (λ e, isAuthError e = true) others →
  let pg := runEvents (idlePage s) (ResponseFailed <$> first :: others) in
  pg = mkPage true 1 [] s
  ∧ (∃ u, session (step pg DialogConfirmed) = u
          ∧ UserStore.token u = "" ∧ UserStore.userInfo u = None
          ∧ UserStore.pushed u = UserStore.pushed s ++ ["/login"; "/login"])
  ∧ step pg DialogCancelled = idlePage s
  ∧ authErrorShowing (step pg DialogConfirmed) = false.
Proof.
  intros Hf Ho pg.
  assert (E : pg = mkPage true 1 [] s).
  { assert (E1 : requestOnError first (idlePage s) = mkPage true 1 [] s).
    { unfold requestOnError. unfold isAuthError in Hf.
      destruct (response first) as [[status data]|]; [|done]. by rewrite Hf. }
    unfold pg. rewrite fmap_cons.
    change (runEvents (idlePage s) (ResponseFailed first :: (ResponseFailed <$> others)))
      with (runEvents (requestOnError first (idlePage s)) (ResponseFailed <$> others)).
    rewrite E1. by apply auth_burst. }
  rewrite E. split_and!; [done| |done|done].
  eexists. split; [done|]. simpl. by rewrite <- app_assoc.
Qed.

Lemma auth_burst_one_dialog_witness :
  let pg := runEvents (idlePage UserStore.clerkSession)
              (ResponseFailed <$> [unauthorized; unauthorized; unauthorized]) in
  pg = mkPage true 1 [] UserStore.clerkSession
  ∧ (∃ u, session (step pg DialogConfirmed) = u
          ∧ UserStore.token u = "" ∧ UserStore.userInfo u = None
          ∧ UserStore.pushed u
            = UserStore.pushed UserStore.clerkSession ++ ["/login"; "/login"])
  ∧ step pg DialogCancelled = idlePage UserStore.clerkSession
  ∧ authErrorShowing (step pg DialogConfirmed) = false.
Proof.
  apply (auth_burst_one_dialog UserStore.clerkSession unauthorized
           [unauthorized; unauthorized]).
  - reflexivity.
  - repeat constructor.
Defined.

(** X23: a failed response that is not a 401 or 403 adds exactly one toast
    and nothing else: no dialog, no change of the flag or of the session;
    when the response body carries a non-empty message string the toast
    shows that message. *)
Theorem other_errors_toast (error : HttpError) (pg : Page) :
  isAuthError error = false →
  let pg' := requestOnError error pg in
  (∃ toast, toasts pg' = toasts pg ++ [toast]
            ∧ ∀ status data m, response error = Some (status, data) →
                getProp data "message" = Some (JsStr m) → m ≠ "" →
                toast = JsStr m)
  ∧ openDialogs pg' = openDialogs pg
  ∧ authErrorShowing pg' = authErrorShowing pg
  ∧ session pg' = session pg.
Proof.
  unfold isAuthError, requestOnError.
  destruct (response error) as [[status data]|]; simpl.
  - intros ->. simpl. split_and!; [|done..]. eexists. split; [done|].
    intros ? ? m [= <- <-] Hm Hne. unfold optMessage, orElse. rewrite Hm. simpl.
    by rewrite (proj2 (truthyStr_true m)).
  - intros _. split_and!; [|done..]. eexists. split; [done|]. by intros.
Qed.

Lemma other_errors_toast_witness :
  let pg' := requestOnError notFound (idlePage UserStore.clerkSession) in
  (∃ toast, toasts pg' = toasts (idlePage UserStore.clerkSession) ++ [toast]
            ∧ ∀ status data m, response notFound = Some (status, data) →
                getProp data "message" = Some (JsStr m) → m ≠ "" →
                toast = JsStr m)
  ∧ openDialogs pg' = openDialogs (idlePage UserStore.clerkSession)
  ∧ authErrorShowing pg' = authErrorShowing (idlePage UserStore.clerkSession)
  ∧ session pg' = session (idlePage UserStore.clerkSession).
Proof.
  apply (other_errors_toast notFound (idlePage UserStore.clerkSession)). reflexivity.
Defined.

(** X24: in the qwn client a 401 response removes the access token from
    [localStorage] and sends the browser to the login page, so the next
    request goes out without an Authorization header; every other entry of
    [localStorage], the refresh token included, stays, and every other
    status leaves the browser as it was. *)
Theorem qwn_unauthorized (b : Qwn.Browser) (rid key : string)
    (headers : gmap string string) (status : option Z) :
  headers !! "Authorization" = None →
  let b' := Qwn.apiClientOnError (Some 401) b in
  Qwn.location b' = "/login"
  ∧ Qwn.apiClientOnRequest b' rid headers !! "Authorization" = None
  ∧ (key ≠ "access_token" → Qwn.storage b' !! key = Qwn.storage b !! key)
  ∧ (status ≠ Some 401 → Qwn.apiClientOnError status b = b).
Proof.
  intros Hnone. simpl. unfold Qwn.apiClientOnRequest. simpl.
  rewrite lookup_delete_eq. split_and!; [done| | |].
  - by rewrite lookup_insert_ne.
  - intros Hk. by rewrite lookup_delete_ne.
  - intros Hs. unfold Qwn.apiClientOnError. destruct status as [code|]; [|done].
    destruct (Z.eqb_spec code 401); [congruence | done].
Qed.

Lemma qwn_unauthorized_witness :
  let b' := Qwn.apiClientOnError (Some 401) Qwn.signedIn in
  Qwn.location b' = "/login"
  ∧ Qwn.apiClientOnRequest b' "req_1" ∅ !! "Authorization" = None
  ∧ ("refresh_token" ≠ "access_token" →
     Qwn.storage b' !! "refresh_token" = Qwn.storage Qwn.signedIn !! "refresh_token")
  ∧ (Some 403 ≠ Some 401 → Qwn.apiClientOnError (Some 403) Qwn.signedIn = Qwn.signedIn).
Proof.
  apply (qwn_unauthorized Qwn.signedIn "req_1" "refresh_token" ∅ (Some 403)).
  reflexivity.
Defined.

End Clients.

(** * The codex auth store and guard *)

Section CodexFacts.

Import Codex.

Context {U : Type}.

Lemma apply_synced (a : Auth U) op : synced a → synced (apply a op).
Proof.
  unfold synced. intros (Ht & Hr & He & Hu).
  destruct op as [tok refresh exp|u| |status]; simpl.
  - unfold setToken. destruct refresh as [r|]; [destruct (truthyStr r)|];
      destruct exp as [e|]; simpl; done.
  - done.
  - done.
  - unfold httpOnError. destruct status as [code|]; [|done].
    by destruct (_ || _).
Qed.

Lemma foldl_synced (a : Auth U) ops : synced a → synced (foldl apply a ops).
Proof.
  revert a. induction ops as [|op ops IH]; intros a H; [done|].
  simpl. by apply IH, apply_synced.
Qed.

(** X25: the codex auth store keeps memory and [localStorage] in step:
    after any sequence of [setToken], [setUser], [logout] and failed
    responses, started from any stored session, re-reading [localStorage]
    yields the token, refresh token, expiry and user held in memory. *)
Theorem codex_store_synced (ls : AuthStorage U) (ops : list (AuthOp U)) :
  let a := foldl apply (initial ls) ops in
  synced a
  ∧ token (initial (persisted a)) = token a
  ∧ refreshToken (initial (persisted a)) = refreshToken a
  ∧ expire (initial (persisted a)) = expire a
  ∧ user (initial (persisted a)) = user a.
Proof.
  intros a. assert (H : synced a) by (apply foldl_synced; by unfold synced).
  split; [done|]. destruct H as (Ht & Hr & He & Hu). simpl. by rewrite Ht, Hr, He, Hu.
Qed.

(** X26: the codex guard lets a navigation to a protected route proceed
    exactly for a session with a non-empty token; after a response with
    status 401 or 403 the store is empty, the login route has been pushed,
    and the guard redirects every protected navigation to the login route
    with the target kept, while public routes pass. *)
Theorem codex_guard (a : Auth U) (to : Router.RouteLocation) (status : Z) :
  (Router.isPublic to = false →
   (beforeEach a to = Router.NextProceed ↔ token a ≠ ""))
  ∧ (status = 401 ∨ status = 403 →
     let a' := httpOnError (Some status) a in
     token a' = "" ∧ user a' = None
     ∧ persisted a' = mkAuthStorage None None None None
     ∧ pushed a' = pushed a ++ ["/login"]
     ∧ beforeEach a' to
       = if Router.isPublic to then Router.NextProceed
         else Router.NextLoginRedirect (Router.fullPath to)).
Proof.
  split.
  - intros Hpub. unfold beforeEach. rewrite Hpub.
    unfold truthyStr. destruct (String.eqb_spec (token a) ""); simpl; naive_solver.
  - intros Hs. unfold httpOnError.
    assert ((status =? 401) || (status =? 403) = true) as ->.
    { destruct Hs as [-> | ->]; done. }
    simpl. split_and!; [done..|]. unfold beforeEach. simpl.
    by destruct (Router.isPublic to).
Qed.

End CodexFacts.
